(** * GifShape: frame reconstruction, polygon masking and the size-constrained
      export loop

    A shallow embedding of [processGifRobust] (utils/gifProcessor) and of
    [handleExport] (App.tsx).

    - JavaScript numbers that are the result of floating-point arithmetic
      (target dimensions, scale factors, megabyte sizes, polygon vertices) are
      IEEE-754 binary64 values: the kernel's primitive [float].
    - Numbers that are integers by provenance (frame placement, delays, loop
      counters, byte sizes, the quality ordinal) are [Z] or [nat].
    - The browser's 2D canvas is modelled as a pixel grid with the drawing
      state the code touches (fill style, scale transform, clip, save/restore
      stack, current path).  Arguments that are finite doubles are taken at
      their exact rational value.  What the canvas standard leaves to the
      browser is a parameter, the [Renderer]: how much of a pixel a region
      covers (anti-aliasing), what a partly covered pixel becomes, how an
      image is resampled when it is drawn scaled (smoothing), and how a
      partly transparent colour is rounded when it is composited.  The model
      fixes only what every renderer agrees on: a pixel no part of which is
      in the region is left alone, a pixel that lies in it entirely is
      painted, and an image drawn unscaled on the pixel grid is copied.
    - [await]ed calls are sequenced; a thrown exception is the [Throw]
      outcome of a small error monad, and a promise is resolved, rejected or
      never settled.
    - The GIF encoder (gif.js) is a black box as far as encoding goes: only
      the byte size of what it renders is observed, through the environment.
      What [addFrame] and [render] do before any encoding is modelled: the
      pixels are read out with [getImageData], a delay of 0 is replaced by
      the default, and nothing is ever rendered from no frames.
    - Progress reports and status messages have no effect on what is
      computed and are left out; of the component state only the fields
      [handleExport] decides on are kept.
    - The log of the calls a run makes, and the way a run ended, are kept
      beside the state so that properties of the loop can be stated. *)

From Stdlib Require Import ZArith QArith Qround Lqa List Bool String Ascii Lia.
From Stdlib Require Import Floats.PrimFloat Floats.SpecFloat Floats.FloatOps.
Import ListNotations.

Set Warnings "-inexact-float".

Close Scope Q_scope.
Open Scope Z_scope.

(* ================================================================== *)
(** ** Outcomes of fallible code *)

Inductive exn : Type :=
| Error (msg : string)          (* [throw new Error(msg)] *)
| TypeError                     (* an argument was refused on conversion *)
| DOMException (name : string)  (* raised by a canvas call *)
| FetchFailed.                  (* the worker script could not be fetched *)

Inductive result (A : Type) : Type :=
| Ok (a : A)
| Throw (e : exn).

Arguments Ok {A} a.
Arguments Throw {A} e.

Definition bind {A B : Type} (m : result A) (k : A -> result B) : result B :=
  match m with
  | Ok a => k a
  | Throw e => Throw e
  end.

Notation "x <- m ;; k" := (bind m (fun x => k))
  (at level 61, m at next level, right associativity).

(** What becomes of a promise that is [await]ed: it is resolved with a
    value, rejected with an exception, or never settled, in which case the
    code after the [await] is never run. *)
Inductive promise (A : Type) : Type :=
| Resolved (a : A)
| Rejected (e : exn)
| Unsettled.

Arguments Resolved {A} a.
Arguments Rejected {A} e.
Arguments Unsettled {A}.

(** The promise of an [async] function whose body ends by returning a
    promise: an exception thrown on the way rejects it. *)
Definition async {A : Type} (body : result (promise A)) : promise A :=
  match body with
  | Ok p => p
  | Throw e => Rejected e
  end.

(* ================================================================== *)
(** ** JavaScript numbers *)

Module JS.

Definition number := float.

(** The exact rational value of a finite double, in lowest terms; [None]
    for NaN and the infinities. *)
Definition exact (x : number) : option Q :=
  match Prim2SF x with
  | S754_zero _ => Some 0%Q
  | S754_finite s m e =>
      let v := if (0 <=? e)%Z
               then inject_Z (Z.pos m * 2 ^ e)
               else Qmake (Z.pos m) (Pos.pow 2 (Z.to_pos (- e))) in
      Some (Qred (if s then Qopp v else v))
  | S754_infinity _ => None
  | S754_nan => None
  end.

(** The double nearest to an integer (round to nearest, ties to even). *)
Definition of_Z (z : Z) : number :=
  SF2Prim (binary_normalize prec emax z 0 false).

Definition two52 : number := 4503599627370496%float.

(** [Math.floor]: doubles of magnitude 2^52 and above are integers already;
    below, adding and subtracting 2^52 rounds to the nearest integer, which
    is corrected downwards when it overshoots. *)
Definition Math_floor (x : number) : number :=
  if (x =? 0)%float then x
  else if (abs x <? two52)%float then
    let r := if (0 <? x)%float
             then ((x + two52) - two52)%float
             else ((x - two52) + two52)%float in
    if (x <? r)%float then (r - 1)%float else r
  else x.

(** [Math.max] of two arguments: NaN if either is NaN, otherwise the larger,
    with +0 above -0. *)
Definition Math_max (a b : number) : number :=
  if is_nan a || is_nan b then nan
  else if (b <? a)%float then a
  else if (a <? b)%float then b
  else if get_sign a then b else a.

Definition Math_sqrt (x : number) : number := sqrt x.

(** Truncation of a rational towards zero. *)
Definition Qtrunc (q : Q) : Z :=
  if Qle_bool 0 q then Qfloor q else Qceiling q.

(** WebIDL conversion of a number to [unsigned long], as performed when a
    canvas dimension is assigned. *)
Definition ToUint32 (x : number) : Z :=
  match exact x with
  | Some q => (Qtrunc q) mod 2 ^ 32
  | None => 0
  end.

(** The same conversion for a number that is an integer already. *)
Definition ToUint32_Z (z : Z) : Z := z mod 2 ^ 32.

(** WebIDL conversion of a number to [[EnforceRange] long], as performed on
    the arguments of [getImageData]: none (a [TypeError]) when the number is
    not finite or its integer part is not a 32-bit signed integer. *)
Definition ToLong (x : number) : option Z :=
  match exact x with
  | Some q =>
      let n := Qtrunc q in
      if ((- 2 ^ 31 <=? n) && (n <=? 2 ^ 31 - 1))%Z then Some n else None
  | None => None
  end.

(** [a % b] on integers: the remainder has the sign of the dividend and is
    NaN when the divisor is zero. *)
Definition rem (a b : Z) : option Z :=
  if (b =? 0)%Z then None else Some (Z.rem a b).

End JS.

(** An argument of a canvas call ([unrestricted double]): [None] stands for
    a non-finite value, on which the call returns without effect. *)
Definition num := option Q.

Definition int (z : Z) : num := Some (inject_Z z).
Definition dbl (x : JS.number) : num := JS.exact x.

(* ================================================================== *)
(** ** Pixels *)

Record RGBA : Type := mkRGBA { red : Z; green : Z; blue : Z; alpha : Z }.

Definition transparent_black : RGBA := mkRGBA 0 0 0 0.
Definition opaque_black : RGBA := mkRGBA 0 0 0 255.

(** A CSS colour of the form [#RRGGBB]. *)
Definition hex_digit (c : ascii) : option Z :=
  let n := Z.of_nat (nat_of_ascii c) in
  if ((48 <=? n) && (n <=? 57))%Z then Some (n - 48)%Z
  else if ((65 <=? n) && (n <=? 70))%Z then Some (n - 55)%Z
  else if ((97 <=? n) && (n <=? 102))%Z then Some (n - 87)%Z
  else None.

Definition hex_pair (hi lo : ascii) : option Z :=
  match hex_digit hi, hex_digit lo with
  | Some h, Some l => Some (16 * h + l)%Z
  | _, _ => None
  end.

Definition parse_color (s : string) : option RGBA :=
  match s with
  | String "#" (String r1 (String r0 (String g1 (String g0
      (String b1 (String b0 EmptyString)))))) =>
      match hex_pair r1 r0, hex_pair g1 g0, hex_pair b1 b0 with
      | Some r, Some g, Some b => Some (mkRGBA r g b 255)
      | _, _, _ => None
      end
  | _ => None
  end.

(** The opaque colour a 24-bit [0xRRGGBB] value denotes. *)
Definition rgb_of_hex (h : Z) : RGBA :=
  mkRGBA (Z.land (Z.shiftr h 16) 255) (Z.land (Z.shiftr h 8) 255)
         (Z.land h 255) 255.

(* ================================================================== *)
(** ** Plane geometry of paths *)

Definition Qpoint : Type := (Q * Q)%type.

Definition Qlt_bool (a b : Q) : bool := negb (Qle_bool b a).

(** Centre of the pixel in column (or row) [i]. *)
Definition centre (i : Z) : Q := Qmake (2 * i + 1) 2.

(** Twice the signed area of the triangle [a b p]: positive when [p] lies to
    the left of the directed line from [a] to [b]. *)
Definition isLeft (a b p : Qpoint) : Q :=
  ((fst b - fst a) * (snd p - snd a) - (fst p - fst a) * (snd b - snd a))%Q.

(** Contribution of the edge from [a] to [b] to the winding number around
    [p]: +1 for an upward crossing with [p] on the left, -1 for a downward
    crossing with [p] on the right. *)
Definition crossing (a b p : Qpoint) : Z :=
  if Qle_bool (snd a) (snd p) then
    if Qlt_bool (snd p) (snd b) && Qlt_bool 0 (isLeft a b p) then 1 else 0
  else
    if Qle_bool (snd b) (snd p) && Qlt_bool (isLeft a b p) 0 then (-1) else 0.

Fixpoint winding_from (first : Qpoint) (pts : list Qpoint) (p : Qpoint) : Z :=
  match pts with
  | [] => 0
  | a :: rest =>
      match rest with
      | [] => crossing a first p
      | b :: _ => crossing a b p + winding_from first rest p
      end
  end.

(** Winding number of the closed polygon [poly] around [p]. *)
Definition winding (poly : list Qpoint) (p : Qpoint) : Z :=
  match poly with
  | [] => 0
  | a :: _ => winding_from a poly p
  end.

(** A point is inside a polygon under the non-zero winding rule. *)
Definition inside_polygon (poly : list Qpoint) (p : Qpoint) : bool :=
  negb (winding poly p =? 0)%Z.

(** A path is a list of subpaths, the current one last; for filling and
    clipping every subpath counts as closed. *)
Definition Path : Type := list (list Qpoint).

Definition path_winding (path : Path) (p : Qpoint) : Z :=
  fold_right (fun sub acc => winding sub p + acc)%Z 0%Z path.

Definition inside_path (path : Path) (p : Qpoint) : bool :=
  negb (path_winding path p =? 0)%Z.

(** Membership of [u] in the half-open span from [lo] to [lo + len] (either
    orientation). *)
Definition in_span (lo len u : Q) : bool :=
  (Qle_bool lo u && Qlt_bool u (lo + len)%Q) ||
  (Qle_bool (lo + len)%Q u && Qlt_bool u lo).

(** The points of the device plane that belong to pixel [(i, j)]: the open
    unit square at [(i, j)]. *)
Definition in_pixel (i j : Z) (q : Qpoint) : Prop :=
  (inject_Z i < fst q)%Q /\ (fst q < inject_Z (i + 1))%Q /\
  (inject_Z j < snd q)%Q /\ (snd q < inject_Z (j + 1))%Q.

(* ================================================================== *)
(** ** The 2D canvas *)

Record Canvas : Type := mkCanvas {
  cwidth : Z;
  cheight : Z;
  pixels : Z -> Z -> RGBA
}.

Definition in_bounds (c : Canvas) (i j : Z) : bool :=
  ((0 <=? i) && (i <? cwidth c) && (0 <=? j) && (j <? cheight c))%Z.

(** What is read back from a canvas: its bitmap inside, transparent black
    outside. *)
Definition getPixel (c : Canvas) (i j : Z) : RGBA :=
  if in_bounds c i j then pixels c i j else transparent_black.

(** The [width] and [height] attributes reflect an [unsigned long] limited
    to non-negative numbers: a value above 2^31 - 1 is replaced by the
    attribute's default. *)
Definition width_of (n : Z) : Z := if n <=? 2147483647 then n else 300.
Definition height_of (n : Z) : Z := if n <=? 2147483647 then n else 150.

(** A new canvas with [width] and [height] assigned, cleared to transparent
    black. *)
Definition createCanvas (w h : Z) : Canvas :=
  mkCanvas (width_of w) (height_of h) (fun _ _ => transparent_black).

(** What rasterizing is left to the browser.
    - [coverage region i j]: the share of pixel [(i, j)] that a region of
      the device plane covers, from 0 to 1 (anti-aliasing);
    - [blend share painted old]: what a pixel covered in part becomes, given
      what it would become when covered entirely and what it was;
    - [resample image s p]: the colour of [image] at the position [p] of its
      own pixel grid when it is drawn under the scale [s] (smoothing);
    - [compose src dst]: a colour that is neither opaque nor fully
      transparent, composited onto another (rounding). *)
Record Renderer : Type := mkRenderer {
  coverage : (Qpoint -> bool) -> Z -> Z -> Q;
  blend : Q -> RGBA -> RGBA -> RGBA;
  resample : Canvas -> Q * Q -> Qpoint -> RGBA;
  compose : RGBA -> RGBA -> RGBA
}.

(** Source-over compositing of one pixel onto another.  An opaque source
    replaces the destination and a fully transparent one leaves it; in
    between the two are mixed by the renderer. *)
Definition over (r : Renderer) (src dst : RGBA) : RGBA :=
  if (alpha src =? 255)%Z then src
  else if (alpha src =? 0)%Z then dst
  else compose r src dst.

(** What every renderer agrees on: a pixel no point of which is in the
    region is not covered, and a pixel all points of which are in the region
    is covered entirely. *)
Definition conforming (r : Renderer) : Prop :=
  forall (region : Qpoint -> bool) (i j : Z),
    ((forall q, in_pixel i j q -> region q = false) ->
     (coverage r region i j == 0)%Q)
    /\ ((forall q, in_pixel i j q -> region q = true) ->
        (coverage r region i j == 1)%Q).

Record DrawState : Type := mkDrawState {
  ctm : Q * Q;               (* scale part of the current transform *)
  clips : list Path;         (* the clip region: inside every one of them *)
  fillStyle : RGBA
}.

Definition default_state : DrawState := mkDrawState (1, 1)%Q [] opaque_black.

Record Context2D : Type := mkContext2D {
  canvas : Canvas;
  state : DrawState;
  saved : list DrawState;
  path : Path
}.

Definition fresh_context (c : Canvas) : Context2D :=
  mkContext2D c default_state [] [].

(** Assigning [width] and [height] clears the bitmap and resets the context. *)
Definition resize (w h : Z) (ctx : Context2D) : Context2D :=
  fresh_context (createCanvas (JS.ToUint32_Z w) (JS.ToUint32_Z h)).

(** User-space position of a point of the device plane; none when the
    transform is not invertible. *)
Definition to_user_point (st : DrawState) (q : Qpoint) : option Qpoint :=
  let (sx, sy) := ctm st in
  if Qeq_bool sx 0 || Qeq_bool sy 0 then None
  else Some (fst q / sx, snd q / sy)%Q.

(** User-space position of the centre of device pixel [(i, j)]. *)
Definition to_user (st : DrawState) (i j : Z) : option Qpoint :=
  to_user_point st (centre i, centre j).

Definition clipped_in (st : DrawState) (q : Qpoint) : bool :=
  forallb (fun p => inside_path p q) (clips st).

(** The region of the device plane a drawing call reaches: the points that
    pass the clip and whose user-space position is in the shape drawn. *)
Definition reached (st : DrawState) (shape : Qpoint -> bool) (q : Qpoint)
  : bool :=
  clipped_in st q
  && match to_user_point st q with
     | Some u => shape u
     | None => false
     end.

(** Every drawing call repaints the pixels of the bitmap that the region it
    reaches covers: a pixel covered entirely takes the colour the call gives
    it, as a function of the user-space position of its centre and of its
    previous value; a pixel not covered is left alone; what a pixel covered
    in part becomes is the renderer's choice. *)
Definition paint (r : Renderer) (shape : Qpoint -> bool)
  (colour : Qpoint -> RGBA -> RGBA) (ctx : Context2D) : Context2D :=
  let c := canvas ctx in
  let st := state ctx in
  mkContext2D
    (mkCanvas (cwidth c) (cheight c)
       (fun i j =>
          let old := pixels c i j in
          if in_bounds c i j then
            match to_user st i j with
            | Some u =>
                let share := coverage r (reached st shape) i j in
                if Qeq_bool share 0 then old
                else if Qeq_bool share 1 then colour u old
                else blend r share (colour u old) old
            | None => old
            end
          else old))
    st (saved ctx) (path ctx).

Definition in_rect (x y w h : Q) (u : Qpoint) : bool :=
  in_span x w (fst u) && in_span y h (snd u).

Definition fillRect (r : Renderer) (x y w h : num) (ctx : Context2D)
  : Context2D :=
  match x, y, w, h with
  | Some x, Some y, Some w, Some h =>
      paint r (in_rect x y w h)
            (fun _ old => over r (fillStyle (state ctx)) old) ctx
  | _, _, _, _ => ctx
  end.

Definition clearRect (r : Renderer) (x y w h : num) (ctx : Context2D)
  : Context2D :=
  match x, y, w, h with
  | Some x, Some y, Some w, Some h =>
      paint r (in_rect x y w h) (fun _ _ => transparent_black) ctx
  | _, _, _, _ => ctx
  end.

(** Whether a coordinate is that of a pixel centre. *)
Definition at_centre (x : Q) : bool := Qeq_bool x (centre (Qfloor x)).

(** The colour of [image] at the position [p] of its pixel grid, drawn under
    the scale [s]: the pixel itself when the image is drawn unscaled and [p]
    is the centre of a pixel, the renderer's resampling otherwise. *)
Definition sample (r : Renderer) (image : Canvas) (s : Q * Q) (p : Qpoint)
  : RGBA :=
  if Qeq_bool (fst s) 1 && Qeq_bool (snd s) 1
     && at_centre (fst p) && at_centre (snd p)
  then getPixel image (Qfloor (fst p)) (Qfloor (snd p))
  else resample r image s p.

(** [drawImage(image, dx, dy)] with a canvas as the image: the rectangle the
    image occupies is painted source-over with the image sampled at the
    position that falls on each pixel centre. *)
Definition drawImage (r : Renderer) (image : Canvas) (dx dy : num)
  (ctx : Context2D) : result Context2D :=
  if ((cwidth image =? 0) || (cheight image =? 0))%Z
  then Throw (DOMException "InvalidStateError")
  else
    match dx, dy with
    | Some dx, Some dy =>
        Ok (paint r
              (in_rect dx dy (inject_Z (cwidth image))
                             (inject_Z (cheight image)))
              (fun u old =>
                 over r (sample r image (ctm (state ctx))
                              (fst u - dx, snd u - dy)%Q) old)
              ctx)
    | _, _ => Ok ctx
    end.

Record ImageData : Type := mkImageData {
  iwidth : Z;
  iheight : Z;
  ipixel : Z -> Z -> RGBA
}.

Definition clamp8 (v : Z) : Z := Z.max 0 (Z.min 255 v).

(** [new Uint8ClampedArray(source)] *)
Definition Uint8ClampedArray (source : list Z) : list Z := map clamp8 source.

Definition byte_at (data : list Z) (k : Z) : Z := nth (Z.to_nat k) data 0%Z.

(** [new ImageData(data, sw, sh)]: the data are [sh] rows of [sw] pixels of
    four bytes each; any other length is refused. *)
Definition new_ImageData (data : list Z) (sw sh : Z) : result ImageData :=
  if ((0 <? sw) && (0 <? sh) && (Z.of_nat (List.length data) =? 4 * sw * sh))%Z
  then Ok (mkImageData sw sh
             (fun i j =>
                let k := (4 * (j * sw + i))%Z in
                mkRGBA (byte_at data k) (byte_at data (k + 1))
                       (byte_at data (k + 2)) (byte_at data (k + 3))))
  else Throw (DOMException "IndexSizeError").

(** [putImageData] writes pixels as they are: no transform, clip or
    compositing. *)
Definition putImageData (img : ImageData) (dx dy : Z) (ctx : Context2D)
  : Context2D :=
  let c := canvas ctx in
  mkContext2D
    (mkCanvas (cwidth c) (cheight c)
       (fun i j =>
          if (in_bounds c i j && (dx <=? i) && (i <? dx + iwidth img)
              && (dy <=? j) && (j <? dy + iheight img))%Z
          then ipixel img (i - dx) (j - dy)
          else pixels c i j))
    (state ctx) (saved ctx) (path ctx).

(** [getImageData(sx, sy, sw, sh)]: the arguments are converted first (a
    number that is not finite or not a 32-bit integer is a [TypeError]); a
    width or height of 0 is an [IndexSizeError]; the rectangle read runs from
    [(sx, sy)] to [(sx + sw, sy + sh)], whatever the signs, and shows
    transparent black where it leaves the canvas. *)
Definition getImageData (sx sy : Z) (sw sh : JS.number) (ctx : Context2D)
  : result ImageData :=
  match JS.ToLong sw, JS.ToLong sh with
  | Some w, Some h =>
      if ((w =? 0) || (h =? 0))%Z
      then Throw (DOMException "IndexSizeError")
      else
        let x0 := if (w <? 0)%Z then (sx + w)%Z else sx in
        let y0 := if (h <? 0)%Z then (sy + h)%Z else sy in
        Ok (mkImageData (Z.abs w) (Z.abs h)
              (fun i j => getPixel (canvas ctx) (x0 + i) (y0 + j)))
  | _, _ => Throw TypeError
  end.

Definition with_state (st : DrawState) (ctx : Context2D) : Context2D :=
  mkContext2D (canvas ctx) st (saved ctx) (path ctx).

Definition with_path (p : Path) (ctx : Context2D) : Context2D :=
  mkContext2D (canvas ctx) (state ctx) (saved ctx) p.

(** Assigning [fillStyle]: a string that is not a colour is ignored. *)
Definition set_fillStyle (s : string) (ctx : Context2D) : Context2D :=
  match parse_color s with
  | Some c =>
      with_state (mkDrawState (ctm (state ctx)) (clips (state ctx)) c) ctx
  | None => ctx
  end.

Definition save (ctx : Context2D) : Context2D :=
  mkContext2D (canvas ctx) (state ctx) (state ctx :: saved ctx) (path ctx).

Definition restore (ctx : Context2D) : Context2D :=
  match saved ctx with
  | [] => ctx
  | st :: rest => mkContext2D (canvas ctx) st rest (path ctx)
  end.

Definition scale (sx sy : num) (ctx : Context2D) : Context2D :=
  match sx, sy with
  | Some sx, Some sy =>
      let st := state ctx in
      with_state (mkDrawState (fst (ctm st) * sx, snd (ctm st) * sy)%Q
                              (clips st) (fillStyle st)) ctx
  | _, _ => ctx
  end.

(** A user-space point in device space. *)
Definition to_device (st : DrawState) (x y : Q) : Qpoint :=
  (x * fst (ctm st), y * snd (ctm st))%Q.

Definition beginPath (ctx : Context2D) : Context2D := with_path [] ctx.

Definition moveTo (x y : num) (ctx : Context2D) : Context2D :=
  match x, y with
  | Some x, Some y => with_path (path ctx ++ [[to_device (state ctx) x y]]) ctx
  | _, _ => ctx
  end.

(** Extends the current subpath, or starts one when there is none. *)
Fixpoint extend_path (p : Path) (pt : Qpoint) : Path :=
  match p with
  | [] => [[pt]]
  | sub :: rest =>
      match rest with
      | [] => [sub ++ [pt]]
      | _ :: _ => sub :: extend_path rest pt
      end
  end.

Definition lineTo (x y : num) (ctx : Context2D) : Context2D :=
  match x, y with
  | Some x, Some y =>
      with_path (extend_path (path ctx) (to_device (state ctx) x y)) ctx
  | _, _ => ctx
  end.

(** Closes the current subpath and starts a new one at its first point. *)
Fixpoint close_path (p : Path) : Path :=
  match p with
  | [] => []
  | sub :: rest =>
      match rest with
      | [] => match sub with
              | [] => [sub]
              | a :: _ => [sub; [a]]
              end
      | _ :: _ => sub :: close_path rest
      end
  end.

Definition closePath (ctx : Context2D) : Context2D :=
  with_path (close_path (path ctx)) ctx.

(** Intersects the clip region with the current path (non-zero rule). *)
Definition clip (ctx : Context2D) : Context2D :=
  let st := state ctx in
  with_state (mkDrawState (ctm st) (path ctx :: clips st) (fillStyle st)) ctx.

(* ================================================================== *)
(** ** Data of the application (types.ts and the decoder's frames) *)

Module Dims.
Record t : Type := mk { width : Z; height : Z; top : Z; left : Z }.
End Dims.

(** A raw frame as the decoder delivers it: the RGBA bytes of the patch, its
    delay, its placement and its disposal method. *)
Module Frame.
Record t : Type := mk {
  patch : list Z;
  delay : Z;
  dims : Dims.t;
  disposalType : Z
}.
End Frame.

Module Point.
Record t : Type := mk { x : JS.number; y : JS.number }.
End Point.

Module Size.
Record t : Type := mk { width : Z; height : Z }.
End Size.

Inductive ToolState : Type := IDLE | DRAGGING | PROCESSING | COMPLETED.

(* ================================================================== *)
(** ** The encoder object (gif.js) *)

Module GIF.

Record Options : Type := mkOptions {
  workers : Z;
  quality : Z;
  width : JS.number;
  height : JS.number;
  workerScript : string;
  transparent : Z;
  background : string
}.

Record AddedFrame : Type := mkAddedFrame {
  image : ImageData;
  delay : Z
}.

Record t : Type := mk {
  options : Options;
  frames : list AddedFrame
}.

Definition create (o : Options) : t := mk o [].

(** The delay a frame is given when none is: [frameDefaults.delay]. *)
Definition default_delay : Z := 500.

(** [gif.addFrame(ctx, {delay, copy: true})]: the delay kept is
    [options.delay || 500], so a delay of 0 is replaced by the default; the
    pixels are read out of the context at the time of the call, with
    [ctx.getImageData(0, 0, this.options.width, this.options.height)]. *)
Definition addFrame (ctx : Context2D) (d : Z) (g : t) : result t :=
  let kept := if (d =? 0)%Z then default_delay else d in
  data <- getImageData 0 0 (width (options g)) (height (options g)) ctx ;;
  Ok (mk (options g) (frames g ++ [mkAddedFrame data kept])).

End GIF.

(** What [gif.render()] comes to in the end: the encoded animation, of which
    the model keeps what was encoded and how many bytes came out. *)
Record Blob : Type := mkBlob {
  content : GIF.t;
  size : Z
}.

(** The environment of a run: whether the worker script can be fetched,
    whether canvases hand out a 2D context, the encoder's output size, and
    the browser's renderer. *)
Record Env : Type := mkEnv {
  worker_script : option string;
  context2d : bool;
  rendered_size : GIF.t -> Z;
  renderer : Renderer
}.

Definition getWorkerBlobUrl (env : Env) : result string :=
  match worker_script env with
  | Some url => Ok url
  | None => Throw FetchFailed
  end.

Definition getContext (env : Env) (c : Canvas) : option Context2D :=
  if context2d env then Some (fresh_context c) else None.

(** [new Promise(resolve => { gif.on('finished', resolve); gif.render(); })]:
    gif.js starts one task per frame and emits [finished] when the last one
    is done, so with no frame added the promise is never settled. *)
Definition render (env : Env) (g : GIF.t) : promise Blob :=
  match GIF.frames g with
  | [] => Unsettled
  | _ :: _ => Resolved (mkBlob g (rendered_size env g))
  end.

(* ================================================================== *)
(** ** utils/gifProcessor: [processGifRobust] *)

Definition CHROMA_KEY_COLOR_HEX : Z := 0x00FF00.
Definition CHROMA_KEY_COLOR_STR : string := "#00FF00".

(** [if (!ctx) throw new Error('Context error')] *)
Definition require_context (c : option Context2D) : result Context2D :=
  match c with
  | Some ctx => Ok ctx
  | None => Throw (Error "Context error")
  end.

(** The canvases and the encoder the frame loop works on. *)
Module Surfaces.
Record t : Type := mk {
  fullCtx : Context2D;
  exportCtx : Context2D;
  patchCtx : Context2D;
  gif : GIF.t
}.
End Surfaces.

(** The current raw patch, put on the temporary canvas. *)
Definition draw_patch (frame : Frame.t) (patchCtx : Context2D)
  : result Context2D :=
  let dims := Frame.dims frame in
  imageData <- new_ImageData (Uint8ClampedArray (Frame.patch frame))
                             (Dims.width dims) (Dims.height dims) ;;
  Ok (putImageData imageData 0 0
        (resize (Dims.width dims) (Dims.height dims) patchCtx)).

(** [if (frame.disposalType === 2) fullCtx.clearRect(...)] *)
Definition dispose (r : Renderer) (frame : Frame.t) (fullCtx : Context2D)
  : Context2D :=
  let dims := Frame.dims frame in
  if (Frame.disposalType frame =? 2)%Z
  then clearRect r (int (Dims.left dims)) (int (Dims.top dims))
                 (int (Dims.width dims)) (int (Dims.height dims)) fullCtx
  else fullCtx.

(** [fullCtx.drawImage(patchCanvas, dims.left, dims.top)] *)
Definition composite (r : Renderer) (frame : Frame.t) (patchCanvas : Canvas)
  (fullCtx : Context2D) : result Context2D :=
  let dims := Frame.dims frame in
  drawImage r patchCanvas (int (Dims.left dims)) (int (Dims.top dims))
            fullCtx.

(** [i % frameSkip === 0] *)
Definition keeps (i : nat) (frameSkip : Z) : bool :=
  match JS.rem (Z.of_nat i) frameSkip with
  | Some r => (r =? 0)%Z
  | None => false
  end.

(** The delays of at most [n] frames from the head of [frames], added to
    [acc] in order. *)
Fixpoint sum_delays (frames : list Frame.t) (n : nat) (acc : Z) : Z :=
  match n, frames with
  | S n', f :: rest => sum_delays rest n' (acc + Frame.delay f)
  | _, _ => acc
  end.

(** Delay of the frame kept at index [i]: its own and those of the skipped
    frames that follow it. *)
Definition kept_delay (rawFrames : list Frame.t) (i : nat) (frameSkip : Z)
  : Z :=
  sum_delays (skipn i rawFrames) (Z.to_nat frameSkip) 0.

Definition line_to_point (ctx : Context2D) (p : Point.t) : Context2D :=
  lineTo (dbl (Point.x p)) (dbl (Point.y p)) ctx.

(** The polygon as the current path; nothing is added for no points. *)
Definition trace_points (points : list Point.t) (ctx : Context2D)
  : Context2D :=
  match points with
  | [] => ctx
  | p0 :: rest =>
      closePath
        (fold_left line_to_point rest
           (moveTo (dbl (Point.x p0)) (dbl (Point.y p0)) ctx))
  end.

(** The cropped version of the full canvas on the export canvas. *)
Definition crop (r : Renderer) (points : list Point.t)
  (targetWidth targetHeight scaleX scaleY : JS.number)
  (fullCanvas : Canvas) (exportCtx : Context2D) : result Context2D :=
  let c := set_fillStyle CHROMA_KEY_COLOR_STR exportCtx in
  let c := fillRect r (int 0) (int 0) (dbl targetWidth) (dbl targetHeight) c in
  let c := save c in
  let c := scale (dbl scaleX) (dbl scaleY) c in
  let c := beginPath c in
  let c := trace_points points c in
  let c := clip c in
  c <- drawImage r fullCanvas (int 0) (int 0) c ;;
  Ok (restore c).

(** One iteration of the frame loop. *)
Definition frame_body (r : Renderer) (rawFrames : list Frame.t)
  (points : list Point.t)
  (targetWidth targetHeight scaleX scaleY : JS.number) (frameSkip : Z)
  (i : nat) (frame : Frame.t) (s : Surfaces.t) : result Surfaces.t :=
  patchCtx' <- draw_patch frame (Surfaces.patchCtx s) ;;
  fullCtx' <- composite r frame (canvas patchCtx')
                        (dispose r frame (Surfaces.fullCtx s)) ;;
  if keeps i frameSkip then
    let delay := kept_delay rawFrames i frameSkip in
    exportCtx' <- crop r points targetWidth targetHeight scaleX scaleY
                       (canvas fullCtx') (Surfaces.exportCtx s) ;;
    gif' <- GIF.addFrame exportCtx' delay (Surfaces.gif s) ;;
    Ok (Surfaces.mk fullCtx' exportCtx' patchCtx' gif')
  else
    Ok (Surfaces.mk fullCtx' (Surfaces.exportCtx s) patchCtx'
          (Surfaces.gif s)).

(** [for (let i = 0; i < rawFrames.length; i++)], entered with the frames
    from index [i] on still to do. *)
Fixpoint frame_loop (r : Renderer) (rawFrames : list Frame.t)
  (points : list Point.t)
  (targetWidth targetHeight scaleX scaleY : JS.number) (frameSkip : Z)
  (i : nat) (todo : list Frame.t) (s : Surfaces.t) : result Surfaces.t :=
  match todo with
  | [] => Ok s
  | frame :: rest =>
      s' <- frame_body r rawFrames points targetWidth targetHeight
                       scaleX scaleY frameSkip i frame s ;;
      frame_loop r rawFrames points targetWidth targetHeight
                 scaleX scaleY frameSkip (S i) rest s'
  end.

Definition processGifRobust (env : Env)
  (rawFrames : list Frame.t) (points : list Point.t)
  (originalWidth originalHeight : Z)
  (targetWidth targetHeight : JS.number)
  (frameSkip : Z) (quality : Z) : promise Blob :=
  async (
    workerScriptUrl <- getWorkerBlobUrl env ;;
    let gif := GIF.create
                 (GIF.mkOptions 2 quality targetWidth targetHeight
                    workerScriptUrl CHROMA_KEY_COLOR_HEX "#000000") in
    let fullCanvas := createCanvas (JS.ToUint32_Z originalWidth)
                                   (JS.ToUint32_Z originalHeight) in
    fullCtx <- require_context (getContext env fullCanvas) ;;
    let exportCanvas := createCanvas (JS.ToUint32 targetWidth)
                                     (JS.ToUint32 targetHeight) in
    exportCtx <- require_context (getContext env exportCanvas) ;;
    let patchCanvas := createCanvas (JS.ToUint32_Z originalWidth)
                                    (JS.ToUint32_Z originalHeight) in
    patchCtx <- require_context (getContext env patchCanvas) ;;
    let scaleX := (targetWidth / JS.of_Z originalWidth)%float in
    let scaleY := (targetHeight / JS.of_Z originalHeight)%float in
    s <- frame_loop (renderer env) rawFrames points targetWidth targetHeight
                    scaleX scaleY frameSkip 0 rawFrames
                    (Surfaces.mk fullCtx exportCtx patchCtx gif) ;;
    Ok (render env (Surfaces.gif s))).

(* ================================================================== *)
(** ** App.tsx: [handleExport] *)

(** The component state [handleExport] reads and writes.  [processedUrl] is
    the object URL of a blob, that is, the blob offered for download. *)
Module App.
Record t : Type := mk {
  frames : list Frame.t;
  points : list Point.t;
  dims : option Size.t;
  limitFileSize : bool;
  maxFileSize : JS.number;
  processedUrl : option Blob;
  status : ToolState;
  error : option string;
  finalSizeMB : JS.number
}.

Definition setFinalSizeMB (v : JS.number) (a : t) : t :=
  mk (frames a) (points a) (dims a) (limitFileSize a) (maxFileSize a)
     (processedUrl a) (status a) (error a) v.

Definition setProcessedUrl (b : Blob) (a : t) : t :=
  mk (frames a) (points a) (dims a) (limitFileSize a) (maxFileSize a)
     (Some b) (status a) (error a) (finalSizeMB a).

Definition setStatus (s : ToolState) (a : t) : t :=
  mk (frames a) (points a) (dims a) (limitFileSize a) (maxFileSize a)
     (processedUrl a) s (error a) (finalSizeMB a).

Definition setError (msg : string) (a : t) : t :=
  mk (frames a) (points a) (dims a) (limitFileSize a) (maxFileSize a)
     (processedUrl a) (status a) (Some msg) (finalSizeMB a).
End App.

Definition out_of_attempts_message : string :=
  "Could not compress to target size. Returning best effort.".

Definition MAX_ATTEMPTS : nat := 5.
Definition currentSkip : Z := 1.

(** The variables of the loop. *)
Module Vars.
Record t : Type := mk {
  currentW : JS.number;
  currentH : JS.number;
  currentQuality : Z;
  attempt : nat
}.
End Vars.

(** One call of [processGifRobust] that returned: the parameters it was
    given and what came back. *)
Module Attempt.
Record t : Type := mk {
  number : nat;
  width : JS.number;
  height : JS.number;
  quality : Z;
  blob : Blob
}.
End Attempt.

(** How [handleExport] came to its end. *)
Inductive Exit : Type :=
| NothingToDo          (* no dimensions or no frames: returned at once *)
| WithinLimit          (* no limit, or the size is within it *)
| TooSmall             (* the break for extremely small images *)
| OutOfAttempts        (* the loop ran out of attempts *)
| Caught (e : exn)     (* the catch clause *)
| Pending.             (* the awaited call never settled: no end *)

Module Run.
Record t : Type := mk {
  app : App.t;
  attempts : list Attempt.t;
  exit : Exit
}.
End Run.

(** The resize factor for an attempt of [sizeMB] megabytes. *)
Definition scale_factor (maxFileSize sizeMB : JS.number) : JS.number :=
  let ratio := (maxFileSize / sizeMB)%float in
  let safetyRatio := (ratio * 0.9)%float in
  JS.Math_sqrt safetyRatio.

Definition shrink (current scaleFactor : JS.number) : JS.number :=
  JS.Math_max 32%float (JS.Math_floor (current * scaleFactor)%float).

Definition next_quality (attempt : nat) : Z :=
  if (attempt =? 1)%nat then 15
  else if (attempt =? 2)%nat then 20
  else 30.

Definition sizeMB_of (blob : Blob) : JS.number :=
  (JS.of_Z (size blob) / (1024 * 1024))%float.

(** [while (attempt < MAX_ATTEMPTS) { ... }] inside [try], followed by the
    statement after the loop and by the catch clause.  [fuel] bounds the
    number of times the loop condition is evaluated.  When the awaited
    promise is never settled the function is never resumed, and the state
    stays as it was when the call was made. *)
Fixpoint export_loop (fuel : nat) (env : Env) (width height : Z)
  (v : Vars.t) (app : App.t) (log : list Attempt.t) : option Run.t :=
  match fuel with
  | O => None
  | S fuel' =>
      if (Vars.attempt v <? MAX_ATTEMPTS)%nat then
        let attempt := S (Vars.attempt v) in
        match processGifRobust env (App.frames app) (App.points app)
                width height (Vars.currentW v) (Vars.currentH v)
                currentSkip (Vars.currentQuality v) with
        | Unsettled => Some (Run.mk app log Pending)
        | Rejected e =>
            Some (Run.mk
                    (App.setStatus DRAGGING
                       (App.setError "Failed to generate GIF." app))
                    log (Caught e))
        | Resolved blob =>
            let log := log ++ [Attempt.mk attempt (Vars.currentW v)
                                 (Vars.currentH v) (Vars.currentQuality v)
                                 blob] in
            let sizeMB := sizeMB_of blob in
            let app := App.setFinalSizeMB sizeMB app in
            if negb (App.limitFileSize app)
               || (sizeMB <=? App.maxFileSize app)%float
            then
              Some (Run.mk
                      (App.setStatus COMPLETED (App.setProcessedUrl blob app))
                      log WithinLimit)
            else
              let scaleFactor := scale_factor (App.maxFileSize app) sizeMB in
              let currentW := shrink (Vars.currentW v) scaleFactor in
              let currentH := shrink (Vars.currentH v) scaleFactor in
              let currentQuality := next_quality attempt in
              if (currentW <? 32)%float || (currentH <? 32)%float then
                Some (Run.mk
                        (App.setStatus COMPLETED
                           (App.setProcessedUrl blob app))
                        log TooSmall)
              else
                export_loop fuel' env width height
                  (Vars.mk currentW currentH currentQuality attempt) app log
        end
      else
        Some (Run.mk (App.setError out_of_attempts_message app)
                log OutOfAttempts)
  end.

Definition handleExport (fuel : nat) (env : Env) (app : App.t)
  : option Run.t :=
  match App.dims app, App.frames app with
  | None, _ => Some (Run.mk app [] NothingToDo)
  | Some _, [] => Some (Run.mk app [] NothingToDo)
  | Some dims, _ :: _ =>
      let app := App.setStatus PROCESSING app in
      let currentW := JS.of_Z (Size.width dims) in
      let currentH := JS.of_Z (Size.height dims) in
      let currentQuality := 10%Z in
      let attempt := 0%nat in
      export_loop fuel env (Size.width dims) (Size.height dims)
        (Vars.mk currentW currentH currentQuality attempt) app []
  end.

(* ================================================================== *)
(** ** Notions the properties are stated with *)

(** Inputs on which no canvas call throws: a frame whose patch has the bytes
    of its placement rectangle, and canvas sizes that are positive and
    below 2^31. *)
Definition valid_size (w : Z) : bool := (0 <? w) && (w <? 2 ^ 31).

Definition valid_frame (f : Frame.t) : bool :=
  let d := Frame.dims f in
  valid_size (Dims.width d) && valid_size (Dims.height d)
  && (Z.of_nat (List.length (Frame.patch f))
      =? 4 * Dims.width d * Dims.height d).

Definition env_ready (env : Env) : bool :=
  context2d env
  && match worker_script env with Some _ => true | None => false end.


(** The placement rectangle of a frame, as a set of pixels. *)
Definition in_placement (f : Frame.t) (i j : Z) : Prop :=
  let d := Frame.dims f in
  Dims.left d <= i < Dims.left d + Dims.width d /\
  Dims.top d <= j < Dims.top d + Dims.height d.

(** The part of the frame loop that maintains the full canvas: the full and
    the patch context after one more frame. *)
Definition advance (r : Renderer) (frame : Frame.t)
  (st : Context2D * Context2D) : result (Context2D * Context2D) :=
  patchCtx' <- draw_patch frame (snd st) ;;
  fullCtx' <- composite r frame (canvas patchCtx')
                        (dispose r frame (fst st)) ;;
  Ok (fullCtx', patchCtx').

Fixpoint replay (r : Renderer) (frames : list Frame.t)
  (st : Context2D * Context2D) : result (Context2D * Context2D) :=
  match frames with
  | [] => Ok st
  | frame :: rest => st' <- advance r frame st ;; replay r rest st'
  end.

Definition initial_contexts (originalWidth originalHeight : Z)
  : Context2D * Context2D :=
  let c := createCanvas (JS.ToUint32_Z originalWidth)
                        (JS.ToUint32_Z originalHeight) in
  (fresh_context c, fresh_context c).

(** The full canvas once the frames up to and including index [k] have been
    drawn. *)
Definition reconstructed (r : Renderer) (originalWidth originalHeight : Z)
  (rawFrames : list Frame.t) (k : nat) : result Canvas :=
  st <- replay r (firstn (S k) rawFrames)
               (initial_contexts originalWidth originalHeight) ;;
  Ok (canvas (fst st)).

(** The full canvas at the moment the patch of frame [k] is about to be
    drawn onto it: the earlier frames are on it and the disposal test of the
    iteration has been made. *)
Definition before_composite (r : Renderer) (originalWidth originalHeight : Z)
  (rawFrames : list Frame.t) (k : nat) : result Canvas :=
  match nth_error rawFrames k with
  | None => Throw (Error "no such frame")
  | Some frame =>
      st <- replay r (firstn k rawFrames)
                   (initial_contexts originalWidth originalHeight) ;;
      Ok (canvas (dispose r frame (fst st)))
  end.

(** The polygon in target space: the vertices with finite coordinates, each
    scaled by [(sx, sy)]. *)
Definition scaled_vertex (sx sy : Q) (p : Point.t) : option Qpoint :=
  match dbl (Point.x p), dbl (Point.y p) with
  | Some x, Some y => Some (x * sx, y * sy)%Q
  | _, _ => None
  end.

Fixpoint scaled_vertices (sx sy : Q) (points : list Point.t) : list Qpoint :=
  match points with
  | [] => []
  | p :: rest =>
      match scaled_vertex sx sy p with
      | Some v => v :: scaled_vertices sx sy rest
      | None => scaled_vertices sx sy rest
      end
  end.

Definition chroma_key : RGBA := rgb_of_hex CHROMA_KEY_COLOR_HEX.

(** Calls of [processGifRobust] made by a run: those that returned and the
    one that threw or never settled, if any. *)
Definition calls (r : Run.t) : nat :=
  List.length (Run.attempts r)
  + match Run.exit r with Caught _ => 1 | Pending => 1 | _ => 0 end.

(** The blob offered for download at the end of a run, if any. *)
Definition delivered (r : Run.t) : option Blob := App.processedUrl (Run.app r).

(** Whether an attempt came out above the configured limit. *)
Definition over_budget (limit : bool) (max : JS.number) (a : Attempt.t)
  : bool :=
  limit && negb (sizeMB_of (Attempt.blob a) <=? max)%float.

(** A context without transform and without clip. *)
Definition plain (ctx : Context2D) : Prop :=
  ctm (state ctx) = (1, 1)%Q /\ clips (state ctx) = [].

(** A canvas that has pixels. *)
Definition nonempty (c : Canvas) : Prop :=
  (cwidth c =? 0) || (cheight c =? 0) = false.

(** The invariant of the full context: no transform, no clip, and a bitmap
    of fixed size. *)
Definition full_inv (w h : Z) (ctx : Context2D) : Prop :=
  plain ctx /\ cwidth (canvas ctx) = w /\ cheight (canvas ctx) = h.

(** The transform in force after [scale(scaleX, scaleY)] on the identity:
    the call is without effect when a factor is not finite. *)
Definition effective_scale (scaleX scaleY : JS.number) : Q * Q :=
  match dbl scaleX, dbl scaleY with
  | Some sx, Some sy => (sx, sy)
  | _, _ => (1, 1)%Q
  end.

(** The path [trace_points] leaves: the polygon, and the one-point subpath
    that [closePath] starts. *)
Definition polygon_path (poly : list Qpoint) : Path :=
  match poly with
  | [] => []
  | a :: _ => [poly; [a]]
  end.

(** A pixel that lies outside a polygon, and one that lies inside it, with
    all its points. *)
Definition pixel_outside (poly : list Qpoint) (i j : Z) : Prop :=
  forall q, in_pixel i j q -> inside_polygon poly q = false.

Definition pixel_inside (poly : list Qpoint) (i j : Z) : Prop :=
  forall q, in_pixel i j q -> inside_polygon poly q = true.

(** A pixel of the target that the picture, drawn at [(0, 0)] under the
    scale [s], covers entirely. *)
Definition within_picture (s : Q * Q) (full : Canvas) (i j : Z) : Prop :=
  (0 < fst s)%Q /\ (0 < snd s)%Q
  /\ (inject_Z (i + 1) <= inject_Z (cwidth full) * fst s)%Q
  /\ (inject_Z (j + 1) <= inject_Z (cheight full) * snd s)%Q.

(** An image of [tw] by [th] pixels that shows [full] through the polygon
    scaled by [s] and the chroma key elsewhere: a pixel outside the scaled
    polygon is the chroma key; a pixel inside it that the scaled picture
    covers is the picture, sampled where the centre of the pixel falls on
    it, over the chroma key; at scale 1 that is the pixel of the picture
    itself. *)
Definition mask_of (r : Renderer) (points : list Point.t) (s : Q * Q)
  (full : Canvas) (tw th : Z) (img : ImageData) : Prop :=
  let poly := scaled_vertices (fst s) (snd s) points in
  iwidth img = tw /\ iheight img = th /\
  forall i j, 0 <= i < tw -> 0 <= j < th ->
    (pixel_outside poly i j -> ipixel img i j = chroma_key)
    /\ (pixel_inside poly i j -> within_picture s full i j ->
        ipixel img i j
        = over r (sample r full s (centre i / fst s, centre j / snd s)%Q)
                 chroma_key)
    /\ (pixel_inside poly i j -> s = (1, 1)%Q ->
        i < cwidth full -> j < cheight full ->
        ipixel img i j = over r (getPixel full i j) chroma_key).

Definition all_chroma (img : ImageData) : Prop :=
  forall i j, 0 <= i < iwidth img -> 0 <= j < iheight img ->
              ipixel img i j = chroma_key.

(** Disposal applied one step late: where the previous frame asked for its
    rectangle to be restored to the background, that rectangle is
    transparent when the patch of the next frame is about to be drawn. *)
Definition lagged_disposal (r : Renderer) (ow oh : Z)
  (rawFrames : list Frame.t) : Prop :=
  forall k prev c,
    nth_error rawFrames k = Some prev ->
    Frame.disposalType prev = 2 ->
    before_composite r ow oh rawFrames (S k) = Ok c ->
    forall i j, in_placement prev i j -> getPixel c i j = transparent_black.

(** A polygon of fewer than three points makes the run fail. *)
Definition rejects_degenerate (env : Env) (rawFrames : list Frame.t)
  (points : list Point.t) (ow oh : Z) (tw th : JS.number) (quality : Z)
  : Prop :=
  (List.length points < 3)%nat ->
  exists e, processGifRobust env rawFrames points ow oh tw th currentSkip
              quality = Rejected e.

(** Every pixel outside the polygon is the chroma key exactly, a pixel being
    outside when its centre is. *)
Definition keyed_outside (env : Env) (rawFrames : list Frame.t)
  (points : list Point.t) (ow oh : Z) (tw th : JS.number) (quality : Z)
  : Prop :=
  forall blob sx sy fr i j,
    processGifRobust env rawFrames points ow oh tw th currentSkip quality
    = Resolved blob ->
    JS.exact (tw / JS.of_Z ow)%float = Some sx ->
    JS.exact (th / JS.of_Z oh)%float = Some sy ->
    In fr (GIF.frames (content blob)) ->
    0 <= i < iwidth (GIF.image fr) -> 0 <= j < iheight (GIF.image fr) ->
    inside_polygon (scaled_vertices sx sy points) (centre i, centre j)
    = false ->
    ipixel (GIF.image fr) i j = chroma_key.

(** An encoder configured with the target size. *)
Definition sized (targetWidth targetHeight : JS.number) (g : GIF.t) : Prop :=
  GIF.width (GIF.options g) = targetWidth
  /\ GIF.height (GIF.options g) = targetHeight.

(** The delay gif.js keeps for a frame added with the delay [d]. *)
Definition delay_kept (d : Z) : Z := if d =? 0 then GIF.default_delay else d.

(** The delays handed to the encoder while the frames [todo], the first of
    which has index [i], go through the loop: one for every index that is
    kept. *)
Fixpoint kept_delays (rawFrames : list Frame.t) (frameSkip : Z) (i : nat)
  (todo : list Frame.t) : list Z :=
  match todo with
  | [] => []
  | _ :: rest =>
      (if keeps i frameSkip then [kept_delay rawFrames i frameSkip] else [])
      ++ kept_delays rawFrames frameSkip (S i) rest
  end.

Section Emitted.

Variable r : Renderer.
Variable points : list Point.t.
Variables scaleX scaleY : JS.number.
(** Size of the export canvas. *)
Variables EW EH : Z.

(** What an added frame has to do with the raw frame it was made from and
    with the full canvas at that time. *)
Definition frame_ok (full : Canvas) (frame : Frame.t)
  (fr : GIF.AddedFrame) : Prop :=
  GIF.delay fr = delay_kept (Frame.delay frame)
  /\ mask_of r points (effective_scale scaleX scaleY) full EW EH
             (GIF.image fr).

(** The frames added while the full canvas is taken through [frames]. *)
Inductive emits : Context2D * Context2D -> list Frame.t
                  -> list GIF.AddedFrame -> Prop :=
| emits_nil st : emits st [] []
| emits_cons st st' frame rest fr frs :
    advance r frame st = Ok st' ->
    frame_ok (canvas (fst st')) frame fr ->
    emits st' rest frs ->
    emits st (frame :: rest) (fr :: frs).

(** The invariant of the export context between two frames. *)
Definition export_inv (e : Context2D) : Prop :=
  plain e /\ cwidth (canvas e) = EW /\ cheight (canvas e) = EH.

End Emitted.

Section Calls.

Variable env : Env.
Variable frames : list Frame.t.
Variable points : list Point.t.
Variables width height : Z.
Variable limit : bool.
Variable max : JS.number.

(** [a] records the call the loop makes from the variables [v]. *)
Definition call_of (v : Vars.t) (a : Attempt.t) : Prop :=
  Attempt.number a = S (Vars.attempt v)
  /\ Attempt.width a = Vars.currentW v
  /\ Attempt.height a = Vars.currentH v
  /\ Attempt.quality a = Vars.currentQuality v
  /\ processGifRobust env frames points width height
       (Vars.currentW v) (Vars.currentH v) currentSkip
       (Vars.currentQuality v) = Resolved (Attempt.blob a).

(** The variables for the iteration after an attempt that was too large. *)
Definition next_vars (v : Vars.t) (a : Attempt.t) : Vars.t :=
  let scaleFactor := scale_factor max (sizeMB_of (Attempt.blob a)) in
  Vars.mk (shrink (Vars.currentW v) scaleFactor)
          (shrink (Vars.currentH v) scaleFactor)
          (next_quality (S (Vars.attempt v)))
          (S (Vars.attempt v)).

(** The attempts a run can log from the variables [v] on: each is the call
    made from the current variables, and one follows another only when the
    earlier one was over budget. *)
Inductive follows : Vars.t -> list Attempt.t -> Prop :=
| follows_none v : follows v []
| follows_one v a : call_of v a -> follows v [a]
| follows_more v a b rest :
    call_of v a ->
    over_budget limit max a = true ->
    follows (next_vars v a) (b :: rest) ->
    follows v (a :: b :: rest).

End Calls.

(** The variables [handleExport] enters the loop with. *)
Definition first_vars (dims : Size.t) : Vars.t :=
  Vars.mk (JS.of_Z (Size.width dims)) (JS.of_Z (Size.height dims)) 10 0.

(** The call a run ended in without getting a blob back, if any. *)
Definition caught (e : Exit) : nat :=
  match e with Caught _ => 1%nat | Pending => 1%nat | _ => 0%nat end.

(** What can be compared of a run: how it ended, the attempts with their
    number, target size, quality and byte size, the status, the message, and
    the byte size of the blob offered for download. *)
Definition digest (r : Run.t)
  : Exit * list (nat * JS.number * JS.number * Z * Z) * ToolState
    * option string * option Z :=
  (Run.exit r,
   map (fun a => (Attempt.number a, Attempt.width a, Attempt.height a,
                  Attempt.quality a, size (Attempt.blob a)))
       (Run.attempts r),
   App.status (Run.app r), App.error (Run.app r),
   option_map size (delivered r)).

(* ================================================================== *)
(** ** Sample inputs *)

Module Sample.

(** A renderer that anti-aliases and smooths.  Coverage is the share of a
    4 by 4 grid of points of the pixel that lie in the region; a pixel
    covered in part is mixed in that proportion, each channel rounded to the
    nearest integer; a scaled image is resampled by bilinear interpolation
    between the four nearest pixel centres; a partly transparent colour is
    composited with the quotients rounded down. *)
Definition offsets : list Q := [1 # 8; 3 # 8; 5 # 8; 7 # 8]%Q.

Definition subsamples (i j : Z) : list Qpoint :=
  flat_map (fun oy => map (fun ox => (inject_Z i + ox, inject_Z j + oy)%Q)
                          offsets)
           offsets.

Definition supersampled (region : Qpoint -> bool) (i j : Z) : Q :=
  Qmake (Z.of_nat (List.length (filter region (subsamples i j)))) 16.

Definition mix_channel (share : Q) (a b : Z) : Z :=
  Qfloor (share * inject_Z a + (1 - share) * inject_Z b + (1 # 2))%Q.

Definition mix (share : Q) (a b : RGBA) : RGBA :=
  mkRGBA (mix_channel share (red a) (red b))
         (mix_channel share (green a) (green b))
         (mix_channel share (blue a) (blue b))
         (mix_channel share (alpha a) (alpha b)).

Definition bilinear (image : Canvas) (s : Q * Q) (p : Qpoint) : RGBA :=
  let x := (fst p - (1 # 2))%Q in
  let y := (snd p - (1 # 2))%Q in
  let x0 := Qfloor x in
  let y0 := Qfloor y in
  let fx := (x - inject_Z x0)%Q in
  let fy := (y - inject_Z y0)%Q in
  let px (k l : Z) :=
    pixels image (Z.max 0 (Z.min (cwidth image - 1) k))
                 (Z.max 0 (Z.min (cheight image - 1) l)) in
  mix fy (mix fx (px (x0 + 1) (y0 + 1)) (px x0 (y0 + 1)))
         (mix fx (px (x0 + 1) y0) (px x0 y0)).

Definition source_over (src dst : RGBA) : RGBA :=
  let sa := alpha src in
  let da := (alpha dst * (255 - sa) / 255)%Z in
  let oa := (sa + da)%Z in
  let ch (s d : Z) := ((s * sa + d * da) / oa)%Z in
  mkRGBA (ch (red src) (red dst)) (ch (green src) (green dst))
         (ch (blue src) (blue dst)) oa.

Definition smooth : Renderer :=
  mkRenderer supersampled mix bilinear source_over.

Definition env : Env :=
  mkEnv (Some "blob:worker"%string) true (fun _ => 1000) smooth.

(** Two frames of one pixel each on a canvas of 2 by 1: a red pixel on the
    left with disposal type 2, then a blue pixel on the right. *)
Definition red_frame : Frame.t :=
  Frame.mk [255; 0; 0; 255] 100 (Dims.mk 1 1 0 0) 2.
Definition blue_frame : Frame.t :=
  Frame.mk [0; 0; 255; 255] 70 (Dims.mk 1 1 0 1) 1.
Definition frames : list Frame.t := [red_frame; blue_frame].

(** A third frame: a white pixel on the left, where the first frame left
    its red one, with disposal type 2. *)
Definition white_frame : Frame.t :=
  Frame.mk [255; 255; 255; 255] 50 (Dims.mk 1 1 0 0) 2.
Definition three_frames : list Frame.t :=
  [red_frame; blue_frame; white_frame].

Definition segment : list Point.t := [Point.mk 0 0; Point.mk 2 1]%float.

(** A frame of 4 by 2 pixels, red in its left half and blue in its right
    half, and the polygon that frames the left half. *)
Definition two_tone : Frame.t :=
  Frame.mk ([255; 0; 0; 255; 255; 0; 0; 255; 0; 0; 255; 255; 0; 0; 255; 255]
            ++ [255; 0; 0; 255; 255; 0; 0; 255; 0; 0; 255; 255; 0; 0; 255; 255])
           100 (Dims.mk 4 2 0 0) 1.
Definition left_half : list Point.t :=
  [Point.mk 0 0; Point.mk 2 0; Point.mk 2 2; Point.mk 0 2]%float.

(** A red frame of 2 by 1 pixels and a polygon whose right edge runs through
    the second pixel, a quarter of the way in. *)
Definition red_pair : Frame.t :=
  Frame.mk [255; 0; 0; 255; 255; 0; 0; 255] 100 (Dims.mk 2 1 0 0) 1.
Definition five_quarters : list Point.t :=
  [Point.mk 0 0; Point.mk 1.25 0; Point.mk 1.25 1; Point.mk 0 1]%float.

(** An opaque white frame that fills a canvas of [w] by [h]. *)
Definition solid (w h : Z) : list Z := Z.iter (4 * w * h) (cons 255) [].
Definition plate (w h : Z) : Frame.t :=
  Frame.mk (solid w h) 100 (Dims.mk w h 0 0) 1.

(** The polygon the editor starts with on an image of [w] by [h]: a diamond
    whose corners are the midpoints of the sides moved inwards by
    [Math.min(width, height) * 0.2]. *)
Definition diamond (w h : Z) : list Point.t :=
  let width := JS.of_Z w in
  let height := JS.of_Z h in
  let padding := (JS.of_Z (Z.min w h) * 0.2)%float in
  [Point.mk (width * 0.5)%float padding;
   Point.mk (width - padding)%float (height * 0.5)%float;
   Point.mk (width * 0.5)%float (height - padding)%float;
   Point.mk padding (height * 0.5)%float].

(** An encoder with a fixed overhead and one byte per pixel of the target
    size. *)
Definition overhead_encoder : Env :=
  mkEnv (Some "blob:worker"%string) true
    (fun g => 1400000
              + JS.ToUint32 (GIF.width (GIF.options g))
                * JS.ToUint32 (GIF.height (GIF.options g)))
    smooth.

(** The application with one frame of [w] by [h] loaded and the size limit
    switched on. *)
Definition app (w h : Z) (maxFileSize : JS.number) : App.t :=
  App.mk [plate w h] (diamond w h) (Some (Size.mk w h)) true maxFileSize
         None DRAGGING None 0%float.

End Sample.

(* ================================================================== *)
(** * Properties *)

(** *** Rational arithmetic, up to syntactic equality *)

Lemma Qmult_1_l_eq (q : Q) : (1 * q)%Q = q.
Proof.
  destruct q as [n d]. unfold Qmult; simpl.
  f_equal. now destruct n.
Qed.

Lemma Qdiv_1_r_eq (q : Q) : (q / 1)%Q = q.
Proof.
  destruct q as [n d]. unfold Qdiv, Qmult; simpl.
  now rewrite Z.mul_1_r, Pos.mul_1_r.
Qed.

Lemma Qminus_0_r_eq (q : Q) : (q - 0)%Q = q.
Proof.
  destruct q as [n d]. unfold Qminus, Qplus; simpl.
  now rewrite Z.mul_1_r, Z.add_0_r, Pos.mul_1_r.
Qed.

Lemma inject_Z_plus_eq (a b : Z) :
  (inject_Z a + inject_Z b)%Q = inject_Z (a + b).
Proof.
  unfold Qplus, inject_Z; simpl. now rewrite !Z.mul_1_r.
Qed.

Lemma Qlt_bool_iff (a b : Q) : Qlt_bool a b = true <-> (a < b)%Q.
Proof.
  unfold Qlt_bool. rewrite negb_true_iff. split; intros H.
  - apply Qnot_le_lt. intros L. apply Qle_bool_iff in L. congruence.
  - destruct (Qle_bool b a) eqn:E; [|reflexivity].
    apply Qle_bool_iff in E. exfalso. now apply (Qlt_not_le a b).
Qed.


Lemma Qle_bool_false (a b : Q) : Qle_bool a b = false <-> (b < a)%Q.
Proof.
  split; intros H.
  - apply Qnot_le_lt. intros L. apply Qle_bool_iff in L. congruence.
  - destruct (Qle_bool a b) eqn:E; [|reflexivity].
    apply Qle_bool_iff in E. exfalso. now apply (Qlt_not_le b a).
Qed.

Lemma Qlt_bool_false (a b : Q) : Qlt_bool a b = false <-> (b <= a)%Q.
Proof.
  unfold Qlt_bool. rewrite negb_false_iff. apply Qle_bool_iff.
Qed.

Lemma inject_Z_succ (i : Z) : (inject_Z (i + 1) == inject_Z i + 1)%Q.
Proof. rewrite inject_Z_plus. reflexivity. Qed.

(** *** Pixels and the spans of rectangles *)

Lemma centre_in_pixel (i j : Z) : in_pixel i j (centre i, centre j).
Proof.
  unfold in_pixel, centre, Qlt, inject_Z; cbn [fst snd Qnum Qden].
  repeat split; lia.
Qed.

(** Between two integers next to each other, a number is on the same side
    of any integer as the smaller of the two. *)
Lemma Qle_bool_int_pixel (a i : Z) (u : Q) :
  (inject_Z i < u)%Q -> (u < inject_Z (i + 1))%Q ->
  Qle_bool (inject_Z a) u = (a <=? i).
Proof.
  intros H1 H2. destruct (Z.leb_spec a i) as [L|L].
  - apply Qle_bool_iff. apply Qlt_le_weak.
    apply Qle_lt_trans with (inject_Z i); [|exact H1].
    now rewrite <- Zle_Qle.
  - apply Qle_bool_false.
    apply Qlt_le_trans with (inject_Z (i + 1)); [exact H2|].
    rewrite <- Zle_Qle. lia.
Qed.

Lemma Qlt_bool_pixel_int (b i : Z) (u : Q) :
  (inject_Z i < u)%Q -> (u < inject_Z (i + 1))%Q ->
  Qlt_bool u (inject_Z b) = (i <? b).
Proof.
  intros H1 H2. destruct (Z.ltb_spec i b) as [L|L].
  - apply Qlt_bool_iff.
    apply Qlt_le_trans with (inject_Z (i + 1)); [exact H2|].
    rewrite <- Zle_Qle. lia.
  - apply Qlt_bool_false. apply Qlt_le_weak.
    apply Qle_lt_trans with (inject_Z i); [|exact H1].
    now rewrite <- Zle_Qle.
Qed.

Lemma in_span_pixel (a n i : Z) (u : Q) :
  0 <= n -> (inject_Z i < u)%Q -> (u < inject_Z (i + 1))%Q ->
  in_span (inject_Z a) (inject_Z n) u = (a <=? i) && (i <? a + n).
Proof.
  intros Hn H1 H2. unfold in_span.
  rewrite inject_Z_plus_eq.
  rewrite !(Qle_bool_int_pixel _ i u H1 H2), !(Qlt_bool_pixel_int _ i u H1 H2).
  destruct (Z.leb_spec a i), (Z.ltb_spec i (a + n)),
    (Z.leb_spec (a + n) i), (Z.ltb_spec i a); cbn; try reflexivity; lia.
Qed.

(** A rectangle with integer corners contains a pixel with all its points
    or with none. *)
Lemma in_rect_pixel (l t w h i j : Z) (q : Qpoint) :
  0 <= w -> 0 <= h -> in_pixel i j q ->
  in_rect (inject_Z l) (inject_Z t) (inject_Z w) (inject_Z h) q
  = (l <=? i) && (i <? l + w) && ((t <=? j) && (j <? t + h)).
Proof.
  intros Hw Hh (H1 & H2 & H3 & H4). unfold in_rect.
  now rewrite (in_span_pixel l w i _ Hw H1 H2),
              (in_span_pixel t h j _ Hh H3 H4).
Qed.

(** *** Painting on a context *)

Lemma Qeq_bool_one_zero (a : Q) : (a == 1)%Q -> Qeq_bool a 0 = false.
Proof.
  intros H. destruct (Qeq_bool a 0) eqn:E; [|reflexivity].
  apply Qeq_bool_iff in E. rewrite E in H. discriminate H.
Qed.

(** A pixel that the region reached covers with all its points takes the
    colour of the call. *)
Lemma paint_covered (r : Renderer) (shape : Qpoint -> bool)
  (colour : Qpoint -> RGBA -> RGBA) (ctx : Context2D) (i j : Z) (u : Qpoint) :
  conforming r ->
  in_bounds (canvas ctx) i j = true ->
  to_user (state ctx) i j = Some u ->
  (forall q, in_pixel i j q -> reached (state ctx) shape q = true) ->
  pixels (canvas (paint r shape colour ctx)) i j
  = colour u (pixels (canvas ctx) i j).
Proof.
  intros Hr Hb Hu Hall. unfold paint; cbn [canvas pixels].
  rewrite Hb, Hu. cbn zeta.
  destruct (Hr (reached (state ctx) shape) i j) as [_ H1].
  specialize (H1 Hall).
  rewrite (Qeq_bool_one_zero _ H1).
  apply Qeq_bool_iff in H1. now rewrite H1.
Qed.

(** A pixel no point of which is reached is left as it was. *)
Lemma paint_missed (r : Renderer) (shape : Qpoint -> bool)
  (colour : Qpoint -> RGBA -> RGBA) (ctx : Context2D) (i j : Z) :
  conforming r ->
  (forall q, in_pixel i j q -> reached (state ctx) shape q = false) ->
  pixels (canvas (paint r shape colour ctx)) i j = pixels (canvas ctx) i j.
Proof.
  intros Hr Hnone. unfold paint; cbn [canvas pixels].
  destruct (in_bounds (canvas ctx) i j); [|reflexivity].
  destruct (to_user (state ctx) i j) as [u|]; [|reflexivity].
  cbn zeta.
  destruct (Hr (reached (state ctx) shape) i j) as [H0 _].
  specialize (H0 Hnone). apply Qeq_bool_iff in H0. now rewrite H0.
Qed.

Lemma to_user_point_plain (st : DrawState) (q : Qpoint) :
  ctm st = (1, 1)%Q -> to_user_point st q = Some q.
Proof.
  intros H. unfold to_user_point. rewrite H.
  change (Qeq_bool 1 0) with false. cbn [orb].
  rewrite !Qdiv_1_r_eq. now destruct q.
Qed.

Lemma to_user_plain (st : DrawState) (i j : Z) :
  ctm st = (1, 1)%Q -> to_user st i j = Some (centre i, centre j).
Proof. intros H. unfold to_user. now apply to_user_point_plain. Qed.

Lemma reached_plain (ctx : Context2D) (shape : Qpoint -> bool) (q : Qpoint) :
  plain ctx -> reached (state ctx) shape q = shape q.
Proof.
  intros [Hc Hk]. unfold reached, clipped_in.
  rewrite Hk, (to_user_point_plain _ _ Hc). reflexivity.
Qed.

Lemma in_bounds_paint (r : Renderer) (shape : Qpoint -> bool)
  (colour : Qpoint -> RGBA -> RGBA) (ctx : Context2D) (i j : Z) :
  in_bounds (canvas (paint r shape colour ctx)) i j
  = in_bounds (canvas ctx) i j.
Proof. reflexivity. Qed.

(** On a context without transform or clip, a rectangle with integer
    corners is painted pixel by pixel. *)
Lemma paint_rect_plain (r : Renderer) (l t w h : Z)
  (colour : Qpoint -> RGBA -> RGBA) (ctx : Context2D) (i j : Z) :
  conforming r -> plain ctx -> 0 <= w -> 0 <= h ->
  pixels (canvas (paint r (in_rect (inject_Z l) (inject_Z t) (inject_Z w)
                                   (inject_Z h)) colour ctx)) i j
  = if in_bounds (canvas ctx) i j
       && ((l <=? i) && (i <? l + w) && ((t <=? j) && (j <? t + h)))
    then colour (centre i, centre j) (pixels (canvas ctx) i j)
    else pixels (canvas ctx) i j.
Proof.
  intros Hr Hp Hw Hh.
  destruct ((l <=? i) && (i <? l + w) && ((t <=? j) && (j <? t + h))) eqn:E.
  - destruct (in_bounds (canvas ctx) i j) eqn:Hb; cbn [andb].
    + apply paint_covered; try assumption.
      * apply to_user_plain, Hp.
      * intros q Hq. rewrite (reached_plain _ _ _ Hp).
        now rewrite (in_rect_pixel l t w h i j q Hw Hh Hq).
    + unfold paint; cbn [canvas pixels]. now rewrite Hb.
  - rewrite andb_false_r. apply paint_missed; [assumption|].
    intros q Hq. rewrite (reached_plain _ _ _ Hp).
    now rewrite (in_rect_pixel l t w h i j q Hw Hh Hq).
Qed.

Lemma clearRect_plain (r : Renderer) (l t w h : Z) (ctx : Context2D) :
  plain ctx -> plain (clearRect r (int l) (int t) (int w) (int h) ctx).
Proof. intros H; exact H. Qed.

(** What [clearRect] leaves of a rectangle with integer corners (on a
    context without transform or clip): transparent black inside, the
    pixels as they were outside. *)
Lemma clearRect_pixels (r : Renderer) (l t w h : Z) (ctx : Context2D)
  (i j : Z) :
  conforming r -> plain ctx -> 0 <= w -> 0 <= h ->
  getPixel (canvas (clearRect r (int l) (int t) (int w) (int h) ctx)) i j
  = if (l <=? i) && (i <? l + w) && ((t <=? j) && (j <? t + h))
    then transparent_black
    else getPixel (canvas ctx) i j.
Proof.
  intros Hr Hp Hw Hh. unfold clearRect, int, getPixel.
  rewrite in_bounds_paint, paint_rect_plain by assumption.
  destruct (in_bounds (canvas ctx) i j); cbn [andb];
    destruct ((l <=? i) && (i <? l + w) && ((t <=? j) && (j <? t + h)));
    reflexivity.
Qed.

(** *** Maintaining the full canvas *)

Lemma valid_size_spec (w : Z) :
  valid_size w = true -> 0 < w < 2 ^ 31.
Proof.
  unfold valid_size. intros H. apply andb_true_iff in H as [H1 H2].
  apply Z.ltb_lt in H1, H2. lia.
Qed.

Lemma width_of_small (n : Z) : n < 2 ^ 31 -> width_of n = n.
Proof.
  intros H. unfold width_of.
  replace (n <=? 2147483647) with true; [reflexivity|].
  symmetry. apply Z.leb_le. lia.
Qed.

Lemma height_of_small (n : Z) : n < 2 ^ 31 -> height_of n = n.
Proof.
  intros H. unfold height_of.
  replace (n <=? 2147483647) with true; [reflexivity|].
  symmetry. apply Z.leb_le. lia.
Qed.

Lemma ToUint32_Z_valid (w : Z) :
  valid_size w = true -> JS.ToUint32_Z w = w.
Proof.
  intros H. apply valid_size_spec in H.
  unfold JS.ToUint32_Z. apply Z.mod_small. lia.
Qed.

Lemma width_of_valid (w : Z) :
  valid_size w = true -> width_of (JS.ToUint32_Z w) = w.
Proof.
  intros H. rewrite ToUint32_Z_valid by exact H.
  apply width_of_small. apply valid_size_spec in H. lia.
Qed.

Lemma height_of_valid (h : Z) :
  valid_size h = true -> height_of (JS.ToUint32_Z h) = h.
Proof.
  intros H. rewrite ToUint32_Z_valid by exact H.
  apply height_of_small. apply valid_size_spec in H. lia.
Qed.


Lemma draw_patch_valid (frame : Frame.t) (patchCtx : Context2D) :
  valid_frame frame = true ->
  exists p, draw_patch frame patchCtx = Ok p /\ nonempty (canvas p).
Proof.
  unfold valid_frame. intros H.
  apply andb_true_iff in H as [H Hlen].
  apply andb_true_iff in H as [Hw Hh].
  unfold draw_patch, new_ImageData, Uint8ClampedArray.
  rewrite length_map, Hlen.
  pose proof (valid_size_spec _ Hw) as Hw'.
  pose proof (valid_size_spec _ Hh) as Hh'.
  replace (0 <? Dims.width (Frame.dims frame)) with true
    by (symmetry; apply Z.ltb_lt; lia).
  replace (0 <? Dims.height (Frame.dims frame)) with true
    by (symmetry; apply Z.ltb_lt; lia).
  cbn [andb bind]. eexists; split; [reflexivity|].
  unfold nonempty, putImageData, resize; cbn [canvas cwidth cheight
    fresh_context createCanvas].
  rewrite width_of_valid, height_of_valid by assumption.
  apply orb_false_iff; split; apply Z.eqb_neq; lia.
Qed.

Lemma drawImage_nonempty (r : Renderer) (image : Canvas) (dx dy : Z)
  (ctx : Context2D) :
  nonempty image ->
  drawImage r image (int dx) (int dy) ctx
  = Ok (paint r
          (in_rect (inject_Z dx) (inject_Z dy) (inject_Z (cwidth image))
                   (inject_Z (cheight image)))
          (fun u old =>
             over r (sample r image (ctm (state ctx))
                          (fst u - inject_Z dx, snd u - inject_Z dy)%Q) old)
          ctx).
Proof.
  intros H. unfold drawImage. unfold nonempty in H. now rewrite H.
Qed.

Lemma dispose_inv (r : Renderer) (w h : Z) (frame : Frame.t)
  (ctx : Context2D) :
  full_inv w h ctx -> full_inv w h (dispose r frame ctx).
Proof.
  intros H. unfold dispose.
  destruct (Frame.disposalType frame =? 2); exact H.
Qed.

Lemma advance_valid (r : Renderer) (w h : Z) (frame : Frame.t)
  (st : Context2D * Context2D) :
  valid_frame frame = true -> full_inv w h (fst st) ->
  exists st', advance r frame st = Ok st' /\ full_inv w h (fst st').
Proof.
  intros Hv Hinv. unfold advance.
  destruct (draw_patch_valid frame (snd st) Hv) as (p & -> & Hp).
  cbn [bind]. unfold composite.
  rewrite drawImage_nonempty by exact Hp. cbn [bind].
  eexists; split; [reflexivity|]. cbn [fst].
  apply (dispose_inv r w h frame) in Hinv. exact Hinv.
Qed.

Lemma replay_valid (r : Renderer) (w h : Z) (frames : list Frame.t) :
  forall st,
    forallb valid_frame frames = true -> full_inv w h (fst st) ->
    exists st', replay r frames st = Ok st' /\ full_inv w h (fst st').
Proof.
  induction frames as [|frame rest IH]; intros st Hv Hinv.
  - exists st. split; [reflexivity | exact Hinv].
  - cbn [forallb] in Hv. apply andb_true_iff in Hv as [Hf Hr].
    destruct (advance_valid r w h frame st Hf Hinv) as (st1 & E1 & Hinv1).
    destruct (IH st1 Hr Hinv1) as (st2 & E2 & Hinv2).
    exists st2. split; [|exact Hinv2].
    cbn [replay]. rewrite E1. exact E2.
Qed.

Lemma replay_app (r : Renderer) (l1 l2 : list Frame.t) :
  forall st st1,
    replay r l1 st = Ok st1 -> replay r (l1 ++ l2) st = replay r l2 st1.
Proof.
  induction l1 as [|f l1 IH]; intros st st1 H.
  - cbn in H. injection H as <-. reflexivity.
  - cbn [replay app] in *.
    destruct (advance r f st) as [st'|e]; cbn [bind] in *.
    + now apply IH.
    + discriminate.
Qed.

Lemma initial_inv (w h : Z) :
  valid_size w = true -> valid_size h = true ->
  full_inv w h (fst (initial_contexts w h)).
Proof.
  intros Hw Hh. unfold initial_contexts, full_inv, plain; cbn.
  rewrite width_of_valid, height_of_valid by assumption. auto.
Qed.

Lemma forallb_firstn {A} (f : A -> bool) (l : list A) (n : nat) :
  forallb f l = true -> forallb f (firstn n l) = true.
Proof.
  revert n; induction l as [|a l IH]; intros [|n] H; cbn in *; auto.
  apply andb_true_iff in H as [H1 H2]. rewrite H1. cbn. now apply IH.
Qed.


(** *** The polygon as a path *)


Lemma with_path_with_path (p q : Path) (ctx : Context2D) :
  with_path p (with_path q ctx) = with_path p ctx.
Proof. reflexivity. Qed.

Lemma fold_extend_single (vs sub : list Qpoint) :
  fold_left extend_path vs [sub] = [sub ++ vs].
Proof.
  revert sub; induction vs as [|v vs IH]; intros sub; cbn [fold_left].
  - now rewrite app_nil_r.
  - cbn [extend_path]. rewrite IH. now rewrite <- app_assoc.
Qed.

Lemma fold_extend_nil (vs : list Qpoint) :
  fold_left extend_path vs [] = match vs with [] => [] | _ :: _ => [vs] end.
Proof.
  destruct vs as [|v vs]; [reflexivity|].
  cbn [fold_left extend_path]. now rewrite fold_extend_single.
Qed.

Lemma fold_line_to (rest : list Point.t) :
  forall ctx,
    fold_left line_to_point rest ctx
    = with_path (fold_left extend_path
                   (scaled_vertices (fst (ctm (state ctx)))
                                    (snd (ctm (state ctx))) rest)
                   (path ctx)) ctx.
Proof.
  induction rest as [|p rest IH]; intros ctx; cbn [fold_left scaled_vertices].
  - now destruct ctx.
  - rewrite IH. unfold line_to_point, lineTo, scaled_vertex.
    destruct (dbl (Point.x p)) as [x|], (dbl (Point.y p)) as [y|];
      try reflexivity.
Qed.

Lemma trace_points_path (points : list Point.t) (ctx : Context2D) :
  path ctx = [] ->
  trace_points points ctx
  = with_path (polygon_path
                 (scaled_vertices (fst (ctm (state ctx)))
                                  (snd (ctm (state ctx))) points)) ctx.
Proof.
  intros Hp. destruct points as [|p0 rest].
  - cbn. destruct ctx; cbn in *; now subst.
  - unfold trace_points. rewrite fold_line_to.
    unfold closePath. rewrite with_path_with_path.
    cbn [scaled_vertices]. unfold moveTo, scaled_vertex.
    destruct (dbl (Point.x p0)) as [x|], (dbl (Point.y p0)) as [y|];
      cbn [path with_path state canvas saved]; rewrite ?Hp; cbn [app].
    + rewrite fold_extend_single. cbn [app close_path polygon_path].
      unfold to_device. reflexivity.
    + rewrite fold_extend_nil.
      now destruct (scaled_vertices _ _ rest).
    + rewrite fold_extend_nil.
      now destruct (scaled_vertices _ _ rest).
    + rewrite fold_extend_nil.
      now destruct (scaled_vertices _ _ rest).
Qed.

Lemma crossing_self (a p : Qpoint) : crossing a a p = 0.
Proof.
  unfold crossing, Qlt_bool.
  destruct (Qle_bool (snd a) (snd p)); reflexivity.
Qed.

Lemma inside_polygon_path (poly : list Qpoint) (p : Qpoint) :
  inside_path (polygon_path poly) p = inside_polygon poly p.
Proof.
  unfold inside_path, inside_polygon. f_equal. f_equal.
  destruct poly as [|a rest]; [reflexivity|].
  cbn [polygon_path path_winding fold_right].
  change (winding [a] p) with (crossing a a p).
  rewrite crossing_self. lia.
Qed.

(** *** Sampling an image drawn unscaled *)

Lemma Qfloor_centre_minus (i l : Z) :
  Qfloor (centre i - inject_Z l) = i - l.
Proof.
  unfold Qfloor, centre, Qminus, Qplus, Qopp, inject_Z; cbn [Qnum Qden].
  change (Z.pos (2 * 1)) with 2.
  replace ((2 * i + 1) * 1 + - l * 2) with (1 + (i - l) * 2) by lia.
  rewrite Z.div_add by lia. reflexivity.
Qed.

Lemma at_centre_minus (i l : Z) : at_centre (centre i - inject_Z l) = true.
Proof.
  unfold at_centre. rewrite Qfloor_centre_minus.
  apply Qeq_bool_iff.
  unfold Qeq, centre, Qminus, Qplus, Qopp, inject_Z; cbn [Qnum Qden]. lia.
Qed.

(** Drawn unscaled at an integer offset, an image is copied pixel by
    pixel. *)
Lemma sample_aligned (r : Renderer) (image : Canvas) (i j dx dy : Z) :
  sample r image (1, 1)%Q (centre i - inject_Z dx, centre j - inject_Z dy)%Q
  = getPixel image (i - dx) (j - dy).
Proof.
  unfold sample; cbn [fst snd].
  change (Qeq_bool 1 1) with true.
  rewrite !at_centre_minus, !Qfloor_centre_minus. reflexivity.
Qed.

Lemma sample_centre (r : Renderer) (image : Canvas) (i j : Z) :
  sample r image (1, 1)%Q (centre i, centre j) = getPixel image i j.
Proof.
  pose proof (sample_aligned r image i j 0 0) as H.
  change (inject_Z 0) with 0%Q in H.
  rewrite !Qminus_0_r_eq, !Z.sub_0_r in H. exact H.
Qed.

(** *** Cropping one frame *)

Lemma parse_chroma : parse_color CHROMA_KEY_COLOR_STR = Some chroma_key.
Proof. reflexivity. Qed.

Lemma over_chroma (r : Renderer) (old : RGBA) :
  over r chroma_key old = chroma_key.
Proof. reflexivity. Qed.

Lemma in_bounds_spec (c : Canvas) (i j : Z) :
  in_bounds c i j = true <-> 0 <= i < cwidth c /\ 0 <= j < cheight c.
Proof.
  unfold in_bounds. rewrite !andb_true_iff, !Z.leb_le, !Z.ltb_lt. lia.
Qed.

(** The export canvas after the fill: the chroma key on every pixel, when
    the rectangle filled is as large as the canvas. *)
Lemma fill_background (r : Renderer) (tw th : JS.number) (n m : Z)
  (e : Context2D) :
  conforming r -> plain e ->
  dbl tw = Some (inject_Z n) -> dbl th = Some (inject_Z m) ->
  cwidth (canvas e) <= n -> cheight (canvas e) <= m ->
  let c := fillRect r (int 0) (int 0) (dbl tw) (dbl th)
             (set_fillStyle CHROMA_KEY_COLOR_STR e) in
  state c = mkDrawState (1, 1)%Q [] chroma_key
  /\ saved c = saved e
  /\ cwidth (canvas c) = cwidth (canvas e)
  /\ cheight (canvas c) = cheight (canvas e)
  /\ forall i j, in_bounds (canvas e) i j = true ->
                 pixels (canvas c) i j = chroma_key.
Proof.
  intros Hr [Hc Hk] Etw Eth Hn Hm. unfold set_fillStyle.
  rewrite parse_chroma, Hc, Hk, Etw, Eth.
  set (e1 := with_state _ e).
  assert (Hp1 : plain e1) by (split; reflexivity).
  unfold fillRect, int. cbn zeta.
  split; [reflexivity|]. split; [reflexivity|].
  split; [reflexivity|]. split; [reflexivity|].
  intros i j Hb.
  change (in_bounds (canvas e) i j) with (in_bounds (canvas e1) i j) in Hb.
  pose proof Hb as Hb'. apply in_bounds_spec in Hb'.
  change (canvas e1) with (canvas e) in Hb'.
  rewrite paint_rect_plain; try assumption; try lia.
  rewrite Hb. cbn [andb].
  replace ((0 <=? i) && (i <? 0 + n) && ((0 <=? j) && (j <? 0 + m)))
    with true.
  - reflexivity.
  - symmetry. rewrite !andb_true_iff, !Z.leb_le, !Z.ltb_lt. lia.
Qed.

Lemma scale_from_identity (sX sY : JS.number) (c : Context2D) :
  ctm (state c) = (1, 1)%Q ->
  scale (dbl sX) (dbl sY) c
  = with_state (mkDrawState (effective_scale sX sY) (clips (state c))
                            (fillStyle (state c))) c.
Proof.
  intros H. unfold scale, effective_scale.
  destruct (dbl sX) as [sx|], (dbl sY) as [sy|].
  - rewrite H. cbn [fst snd]. now rewrite !Qmult_1_l_eq.
  - destruct c as [cv [m k f] sv p]; cbn in *; now subst.
  - destruct c as [cv [m k f] sv p]; cbn in *; now subst.
  - destruct c as [cv [m k f] sv p]; cbn in *; now subst.
Qed.

Lemma clip_polygon (points : list Point.t) (sX sY : JS.number)
  (c : Context2D) (fill : RGBA) :
  state c = mkDrawState (1, 1)%Q [] fill ->
  let s := effective_scale sX sY in
  let P := polygon_path (scaled_vertices (fst s) (snd s) points) in
  clip (trace_points points (beginPath (scale (dbl sX) (dbl sY) (save c))))
  = mkContext2D (canvas c) (mkDrawState s [P] fill) (state c :: saved c) P.
Proof.
  intros Hs. cbn zeta.
  rewrite scale_from_identity by (cbn; now rewrite Hs).
  rewrite trace_points_path by reflexivity.
  unfold clip, beginPath, with_path, with_state, save;
    cbn [canvas state saved path ctm clips fillStyle].
  rewrite Hs; cbn [clips fillStyle]. reflexivity.
Qed.

Lemma Qeq_bool_pos (a : Q) : (0 < a)%Q -> Qeq_bool a 0 = false.
Proof.
  intros H. destruct (Qeq_bool a 0) eqn:E; [|reflexivity].
  apply Qeq_bool_iff in E. rewrite E in H. now apply Qlt_irrefl in H.
Qed.

(** A point of a pixel of the scaled picture, taken back to the picture,
    is a point of the picture. *)
Lemma in_span_scaled (W i : Z) (s u : Q) :
  0 <= i -> (0 < s)%Q ->
  (inject_Z (i + 1) <= inject_Z W * s)%Q ->
  (inject_Z i < u)%Q -> (u < inject_Z (i + 1))%Q ->
  in_span (inject_Z 0) (inject_Z W) (u / s) = true.
Proof.
  intros Hi Hs Hw H1 H2. unfold in_span.
  apply orb_true_iff; left. apply andb_true_iff; split.
  - apply Qle_bool_iff. change (inject_Z 0) with 0%Q.
    apply Qle_shift_div_l; [exact Hs|].
    rewrite Qmult_0_l. apply Qlt_le_weak.
    apply Qle_lt_trans with (inject_Z i); [|exact H1].
    change 0%Q with (inject_Z 0). now rewrite <- Zle_Qle.
  - apply Qlt_bool_iff. change (inject_Z 0) with 0%Q. rewrite Qplus_0_l.
    apply Qlt_shift_div_r; [exact Hs|].
    apply Qlt_le_trans with (inject_Z (i + 1)); assumption.
Qed.

Lemma crop_spec (r : Renderer) (points : list Point.t)
  (tw th sX sY : JS.number) (n m : Z) (full : Canvas) (e : Context2D) :
  conforming r -> plain e -> nonempty full ->
  dbl tw = Some (inject_Z n) -> dbl th = Some (inject_Z m) ->
  cwidth (canvas e) <= n -> cheight (canvas e) <= m ->
  let s := effective_scale sX sY in
  let poly := scaled_vertices (fst s) (snd s) points in
  exists e',
    crop r points tw th sX sY full e = Ok e'
    /\ plain e'
    /\ saved e' = saved e
    /\ cwidth (canvas e') = cwidth (canvas e)
    /\ cheight (canvas e') = cheight (canvas e)
    /\ forall i j,
         in_bounds (canvas e) i j = true ->
         (pixel_outside poly i j -> pixels (canvas e') i j = chroma_key)
         /\ (pixel_inside poly i j -> within_picture s full i j ->
             pixels (canvas e') i j
             = over r (sample r full s
                              (centre i / fst s, centre j / snd s)%Q)
                      chroma_key).
Proof.
  intros Hr Hp Hfull Etw Eth Hn Hm s poly. unfold crop.
  destruct (fill_background r tw th n m e Hr Hp Etw Eth Hn Hm)
    as (Hst & Hsv & Hw & Hh & Hpx).
  set (c := fillRect _ _ _ _ _ _) in *. clearbody c.
  rewrite (clip_polygon points sX sY c chroma_key Hst).
  fold s. fold poly.
  rewrite drawImage_nonempty by exact Hfull. cbn [bind].
  set (c' := mkContext2D (canvas c) _ _ _).
  eexists; split; [reflexivity|].
  split; [unfold restore, paint; cbn; rewrite Hst; split; reflexivity|].
  split; [unfold restore, paint; cbn; exact Hsv|].
  split; [exact Hw|]. split; [exact Hh|].
  intros i j Hb.
  assert (Hb' : in_bounds (canvas c') i j = true).
  { unfold in_bounds in *. cbn [c' canvas]. now rewrite Hw, Hh. }
  assert (Hclip : forall q, clipped_in (state c') q = inside_polygon poly q).
  { intros q. unfold clipped_in; cbn [c' state clips forallb].
    now rewrite andb_true_r, inside_polygon_path. }
  assert (Hres : forall x,
            pixels (canvas (restore (paint r
              (in_rect (inject_Z 0) (inject_Z 0) (inject_Z (cwidth full))
                       (inject_Z (cheight full))) x c'))) i j
            = pixels (canvas (paint r
              (in_rect (inject_Z 0) (inject_Z 0) (inject_Z (cwidth full))
                       (inject_Z (cheight full))) x c')) i j).
  { intros x. reflexivity. }
  rewrite Hres. split.
  - intros Hout. rewrite paint_missed; [|exact Hr|].
    + cbn [c' canvas]. now apply Hpx.
    + intros q Hq. unfold reached. rewrite Hclip, (Hout q Hq). reflexivity.
  - intros Hin (Hsx & Hsy & Hi & Hj).
    pose proof Hb as Hb0. apply in_bounds_spec in Hb0.
    assert (Hu : to_user (state c') i j
                 = Some (centre i / fst s, centre j / snd s)%Q).
    { unfold to_user, to_user_point; cbn [c' state ctm].
      destruct s as [sx sy]; cbn [fst snd] in *.
      now rewrite (Qeq_bool_pos _ Hsx), (Qeq_bool_pos _ Hsy). }
    rewrite (paint_covered r _ _ c' i j _ Hr Hb' Hu).
    + cbn [fst snd c' canvas state ctm]. rewrite (Hpx i j Hb).
      change (inject_Z 0) with 0%Q. now rewrite !Qminus_0_r_eq.
    + intros q Hq. unfold reached. rewrite Hclip, (Hin q Hq). cbn [andb].
      unfold to_user_point; cbn [c' state ctm].
      destruct s as [sx sy]; cbn [fst snd] in *.
      rewrite (Qeq_bool_pos _ Hsx), (Qeq_bool_pos _ Hsy). cbn [orb].
      destruct Hq as (H1 & H2 & H3 & H4).
      unfold in_rect; cbn [fst snd].
      rewrite (in_span_scaled (cwidth full) i sx (fst q)),
              (in_span_scaled (cheight full) j sy (snd q));
        try assumption; try lia.
Qed.

(** *** Target sizes and reading the export canvas *)

Lemma Qtrunc_int (n : Z) : JS.Qtrunc (inject_Z n) = n.
Proof.
  unfold JS.Qtrunc. destruct (Qle_bool 0 (inject_Z n)).
  - apply Qfloor_Z.
  - apply Qceiling_Z.
Qed.

Lemma ToUint32_int (x : JS.number) (n : Z) :
  JS.exact x = Some (inject_Z n) -> 0 <= n < 2 ^ 31 -> JS.ToUint32 x = n.
Proof.
  intros E Hn. unfold JS.ToUint32. rewrite E, Qtrunc_int.
  apply Z.mod_small. lia.
Qed.

Lemma ToLong_int (x : JS.number) (n : Z) :
  JS.exact x = Some (inject_Z n) -> - 2 ^ 31 <= n < 2 ^ 31 ->
  JS.ToLong x = Some n.
Proof.
  intros E Hn. unfold JS.ToLong. rewrite E, Qtrunc_int.
  replace ((- 2 ^ 31 <=? n) && (n <=? 2 ^ 31 - 1)) with true; [reflexivity|].
  symmetry. rewrite andb_true_iff, !Z.leb_le. lia.
Qed.

(** With a width and height that are positive integers, [getImageData(0, 0,
    width, height)] returns the rectangle of that size at the origin. *)
Lemma getImageData_origin (tw th : JS.number) (n m : Z) (ctx : Context2D) :
  JS.exact tw = Some (inject_Z n) -> 0 < n < 2 ^ 31 ->
  JS.exact th = Some (inject_Z m) -> 0 < m < 2 ^ 31 ->
  getImageData 0 0 tw th ctx
  = Ok (mkImageData n m (fun i j => getPixel (canvas ctx) (0 + i) (0 + j))).
Proof.
  intros En Hn Em Hm. unfold getImageData.
  rewrite (ToLong_int _ _ En), (ToLong_int _ _ Em) by lia.
  replace (n =? 0) with false by (symmetry; apply Z.eqb_neq; lia).
  replace (m =? 0) with false by (symmetry; apply Z.eqb_neq; lia).
  replace (n <? 0) with false by (symmetry; apply Z.ltb_ge; lia).
  replace (m <? 0) with false by (symmetry; apply Z.ltb_ge; lia).
  cbn [orb]. now rewrite !Z.abs_eq by lia.
Qed.

(** *** The frame loop at stride 1 *)

Lemma keeps_stride_1 (i : nat) : keeps i 1 = true.
Proof.
  unfold keeps, JS.rem. cbn [Z.eqb]. now rewrite Z.rem_1_r.
Qed.

Lemma kept_delay_stride_1 (rawFrames : list Frame.t) (i : nat)
  (frame : Frame.t) (rest : list Frame.t) :
  skipn i rawFrames = frame :: rest ->
  kept_delay rawFrames i 1 = Frame.delay frame.
Proof.
  intros H. unfold kept_delay. rewrite H.
  change (Z.to_nat 1) with 1%nat. cbn [sum_delays].
  now destruct rest.
Qed.

Lemma skipn_length_app {A} (l1 l2 : list A) :
  skipn (List.length l1) (l1 ++ l2) = l2.
Proof. induction l1; cbn; auto. Qed.

Section FrameLoop.

Variable r : Renderer.
Variable rawFrames : list Frame.t.
Variable points : list Point.t.
Variables targetWidth targetHeight scaleX scaleY : JS.number.
(** Size of the full canvas and of the export canvas. *)
Variables W H EW EH : Z.
Hypothesis r_conforming : conforming r.
Hypothesis W_valid : valid_size W = true.
Hypothesis H_valid : valid_size H = true.
Hypothesis EW_exact : JS.exact targetWidth = Some (inject_Z EW).
Hypothesis EH_exact : JS.exact targetHeight = Some (inject_Z EH).
Hypothesis EW_valid : 0 < EW < 2 ^ 31.
Hypothesis EH_valid : 0 < EH < 2 ^ 31.

Local Abbreviation framed := (frame_ok r points scaleX scaleY EW EH).
Local Abbreviation emitting := (emits r points scaleX scaleY EW EH).
Local Abbreviation exporting := (export_inv EW EH).

Local Abbreviation sized := (sized targetWidth targetHeight).

Lemma full_nonempty (ctx : Context2D) :
  full_inv W H ctx -> nonempty (canvas ctx).
Proof.
  intros (_ & Hw & Hh). unfold nonempty. rewrite Hw, Hh.
  pose proof (valid_size_spec _ W_valid).
  pose proof (valid_size_spec _ H_valid).
  apply orb_false_iff; split; apply Z.eqb_neq; lia.
Qed.

Lemma frame_body_spec (i : nat) (frame : Frame.t) (rest : list Frame.t)
  (s : Surfaces.t) :
  skipn i rawFrames = frame :: rest ->
  valid_frame frame = true ->
  full_inv W H (Surfaces.fullCtx s) ->
  exporting (Surfaces.exportCtx s) ->
  sized (Surfaces.gif s) ->
  exists s' fr,
    frame_body r rawFrames points targetWidth targetHeight scaleX scaleY 1
               i frame s = Ok s'
    /\ advance r frame (Surfaces.fullCtx s, Surfaces.patchCtx s)
       = Ok (Surfaces.fullCtx s', Surfaces.patchCtx s')
    /\ full_inv W H (Surfaces.fullCtx s')
    /\ exporting (Surfaces.exportCtx s')
    /\ Surfaces.gif s'
       = GIF.mk (GIF.options (Surfaces.gif s))
                (GIF.frames (Surfaces.gif s) ++ [fr])
    /\ framed (canvas (Surfaces.fullCtx s')) frame fr.
Proof.
  intros Hskip Hv Hfull (Hplain & Hew & Heh) (Hgw & Hgh).
  destruct (advance_valid r W H frame
              (Surfaces.fullCtx s, Surfaces.patchCtx s) Hv Hfull)
    as ([full' patch'] & Hadv & Hfull').
  cbn [fst] in Hfull'.
  pose proof Hadv as Hadv0.
  unfold frame_body. unfold advance in Hadv. cbn [fst snd] in Hadv.
  destruct (draw_patch frame (Surfaces.patchCtx s)) as [p|]; cbn [bind] in *;
    [|discriminate].
  destruct (composite r frame (canvas p) _) as [f|]; cbn [bind] in *;
    [|discriminate].
  injection Hadv as -> ->.
  rewrite keeps_stride_1, (kept_delay_stride_1 _ _ _ _ Hskip).
  destruct (crop_spec r points targetWidth targetHeight scaleX scaleY
              EW EH (canvas full') (Surfaces.exportCtx s) r_conforming
              Hplain (full_nonempty _ Hfull') EW_exact EH_exact)
    as (e' & -> & Hplain' & _ & Hw' & Hh' & Hpx); try lia.
  cbn [bind]. unfold GIF.addFrame. rewrite Hgw, Hgh.
  rewrite (getImageData_origin _ _ EW EH e' EW_exact EW_valid
             EH_exact EH_valid).
  cbn [bind]. eexists; eexists; split; [reflexivity|].
  cbn [Surfaces.fullCtx Surfaces.patchCtx Surfaces.exportCtx Surfaces.gif].
  split; [exact Hadv0|]. split; [exact Hfull'|].
  split; [repeat split; try apply Hplain'; congruence|].
  split; [reflexivity|].
  unfold frame_ok, mask_of; cbn [GIF.delay GIF.image iwidth iheight ipixel].
  split; [reflexivity|]. split; [reflexivity|]. split; [reflexivity|].
  intros i0 j0 Hi Hj.
  assert (Hb : in_bounds (canvas (Surfaces.exportCtx s)) i0 j0 = true).
  { apply in_bounds_spec. lia. }
  assert (Hget : getPixel (canvas e') (0 + i0) (0 + j0)
                 = pixels (canvas e') i0 j0).
  { rewrite !Z.add_0_l. unfold getPixel.
    replace (in_bounds (canvas e') i0 j0) with true; [reflexivity|].
    unfold in_bounds in *. now rewrite Hw', Hh'. }
  rewrite Hget.
  destruct (Hpx i0 j0 Hb) as [Hout Hin].
  split; [exact Hout|]. split; [exact Hin|].
  intros Hinside Hs Hi' Hj'.
  rewrite (Hin Hinside).
  - rewrite Hs. cbn [fst snd]. now rewrite !Qdiv_1_r_eq, sample_centre.
  - rewrite Hs. unfold within_picture; cbn [fst snd].
    rewrite !Qmult_1_r, <- !Zle_Qle.
    repeat split; try reflexivity; lia.
Qed.

Lemma frame_loop_spec (todo : list Frame.t) :
  forall done s,
    rawFrames = done ++ todo ->
    forallb valid_frame todo = true ->
    full_inv W H (Surfaces.fullCtx s) ->
    exporting (Surfaces.exportCtx s) ->
    sized (Surfaces.gif s) ->
    exists s' frs,
      frame_loop r rawFrames points targetWidth targetHeight scaleX scaleY 1
                 (List.length done) todo s = Ok s'
      /\ Surfaces.gif s'
         = GIF.mk (GIF.options (Surfaces.gif s))
                  (GIF.frames (Surfaces.gif s) ++ frs)
      /\ emitting (Surfaces.fullCtx s, Surfaces.patchCtx s) todo frs.
Proof.
  induction todo as [|frame rest IH]; intros done s Hraw Hv Hfull Hexp Hsz.
  - exists s, []. split; [reflexivity|]. split; [|constructor].
    rewrite app_nil_r. now destruct (Surfaces.gif s).
  - cbn [forallb] in Hv. apply andb_true_iff in Hv as [Hf Hr].
    assert (Hskip : skipn (List.length done) rawFrames = frame :: rest).
    { rewrite Hraw. apply skipn_length_app. }
    destruct (frame_body_spec _ frame rest s Hskip Hf Hfull Hexp Hsz)
      as (s1 & fr & Hbody & Hadv & Hfull1 & Hexp1 & Hgif1 & Hok).
    assert (Hraw1 : rawFrames = (done ++ [frame]) ++ rest)
      by (now rewrite <- app_assoc).
    assert (Hsz1 : sized (Surfaces.gif s1)).
    { unfold sized. rewrite Hgif1. exact Hsz. }
    destruct (IH (done ++ [frame]) s1 Hraw1 Hr Hfull1 Hexp1 Hsz1)
      as (s2 & frs & Hloop & Hgif2 & Hem).
    exists s2, (fr :: frs). cbn [frame_loop]. rewrite Hbody. cbn [bind].
    rewrite length_app, Nat.add_1_r in Hloop.
    split; [exact Hloop|]. split.
    + rewrite Hgif2, Hgif1. cbn [GIF.options GIF.frames].
      now rewrite <- app_assoc.
    + econstructor; eauto.
Qed.

End FrameLoop.

Section Emits.

Variable r : Renderer.
Variable points : list Point.t.
Variables scaleX scaleY : JS.number.
Variables EW EH : Z.

Local Abbreviation framed := (frame_ok r points scaleX scaleY EW EH).
Local Abbreviation emitting := (emits r points scaleX scaleY EW EH).

Lemma emits_delays st frames frs :
  emitting st frames frs ->
  map GIF.delay frs = map (fun f => delay_kept (Frame.delay f)) frames.
Proof.
  induction 1 as [|st st' frame rest fr frs _ Hok _ IH]; [reflexivity|].
  cbn [map]. destruct Hok as [-> _]. now rewrite IH.
Qed.

Lemma emits_nth st frames frs :
  emitting st frames frs ->
  forall k fr,
    nth_error frs k = Some fr ->
    exists frame stk,
      nth_error frames k = Some frame
      /\ replay r (firstn (S k) frames) st = Ok stk
      /\ framed (canvas (fst stk)) frame fr.
Proof.
  induction 1 as [|st st' frame rest fr0 frs Hadv Hok _ IH];
    intros k fr Hk.
  - now destruct k.
  - destruct k as [|k]; cbn [nth_error] in Hk.
    + injection Hk as <-. exists frame, st'.
      split; [reflexivity|]. split; [|exact Hok].
      cbn [firstn replay]. rewrite Hadv. reflexivity.
    + destruct (IH k fr Hk) as (frame' & stk & Hn & Hrep & Hok').
      exists frame', stk. split; [exact Hn|]. split; [|exact Hok'].
      change (firstn (S (S k)) (frame :: rest))
        with (frame :: firstn (S k) rest).
      cbn [replay]. rewrite Hadv. exact Hrep.
Qed.

End Emits.

Lemma emits_length r points sX sY EW EH st frames frs :
  emits r points sX sY EW EH st frames frs ->
  List.length frs = List.length frames.
Proof.
  intros H. apply emits_delays in H.
  apply (f_equal (@List.length Z)) in H. now rewrite !length_map in H.
Qed.


(** *** The whole of [processGifRobust] at stride 1 *)

Lemma processGifRobust_spec (env : Env) (rawFrames : list Frame.t)
  (points : list Point.t) (ow oh : Z) (targetWidth targetHeight : JS.number)
  (tw th : Z) (quality : Z) :
  env_ready env = true -> conforming (renderer env) ->
  forallb valid_frame rawFrames = true -> rawFrames <> [] ->
  valid_size ow = true -> valid_size oh = true ->
  JS.exact targetWidth = Some (inject_Z tw) -> 0 < tw < 2 ^ 31 ->
  JS.exact targetHeight = Some (inject_Z th) -> 0 < th < 2 ^ 31 ->
  exists blob,
    processGifRobust env rawFrames points ow oh targetWidth targetHeight 1
                     quality = Resolved blob
    /\ (exists url,
          GIF.options (content blob)
          = GIF.mkOptions 2 quality targetWidth targetHeight url
                          CHROMA_KEY_COLOR_HEX "#000000")
    /\ size blob = rendered_size env (content blob)
    /\ emits (renderer env) points
             (targetWidth / JS.of_Z ow)%float
             (targetHeight / JS.of_Z oh)%float tw th
             (initial_contexts ow oh) rawFrames
             (GIF.frames (content blob)).
Proof.
  intros Henv Hr Hv Hne Hw Hh Etw Htw Eth Hth. unfold env_ready in Henv.
  apply andb_true_iff in Henv as [Hctx Hws].
  unfold processGifRobust, getWorkerBlobUrl, getContext.
  destruct (worker_script env) as [url|]; [|discriminate].
  rewrite Hctx. cbn [bind require_context].
  set (s0 := Surfaces.mk _ _ _ _).
  destruct (frame_loop_spec (renderer env) rawFrames points
              targetWidth targetHeight
              (targetWidth / JS.of_Z ow)%float
              (targetHeight / JS.of_Z oh)%float
              ow oh tw th Hr Hw Hh Etw Eth Htw Hth
              rawFrames [] s0 eq_refl Hv)
    as (s' & frs & Hloop & Hgif & Hem).
  - apply initial_inv; assumption.
  - unfold export_inv, plain; cbn [s0 Surfaces.exportCtx fresh_context
      state canvas ctm clips default_state createCanvas cwidth cheight].
    rewrite (ToUint32_int _ _ Etw), (ToUint32_int _ _ Eth) by lia.
    rewrite width_of_small, height_of_small by lia. auto.
  - split; reflexivity.
  - cbn [List.length] in Hloop. rewrite Hloop. cbn [bind async].
    pose proof (emits_length _ _ _ _ _ _ _ _ _ Hem) as Hlen.
    unfold render. rewrite Hgif.
    cbn [GIF.options GIF.frames GIF.quality Surfaces.gif s0 GIF.create
         List.app] in *.
    destruct frs as [|fr frs].
    { destruct rawFrames; [congruence|discriminate]. }
    eexists; split; [reflexivity|]. cbn [content size].
    split; [now exists url|]. split; [reflexivity|]. exact Hem.
Qed.

(** *** Runs on valid input, at any stride and with any renderer *)

Lemma fill_state (r : Renderer) (tw th : JS.number) (e : Context2D) :
  plain e ->
  let c := fillRect r (int 0) (int 0) (dbl tw) (dbl th)
             (set_fillStyle CHROMA_KEY_COLOR_STR e) in
  state c = mkDrawState (1, 1)%Q [] chroma_key
  /\ cwidth (canvas c) = cwidth (canvas e)
  /\ cheight (canvas c) = cheight (canvas e).
Proof.
  intros [Hc Hk]. unfold set_fillStyle. rewrite parse_chroma, Hc, Hk.
  unfold fillRect, int.
  destruct (dbl tw) as [w|], (dbl th) as [h|]; cbn zeta;
    repeat split; reflexivity.
Qed.

Lemma crop_runs (r : Renderer) (points : list Point.t)
  (tw th sX sY : JS.number) (full : Canvas) (e : Context2D) :
  plain e -> nonempty full ->
  exists e',
    crop r points tw th sX sY full e = Ok e'
    /\ plain e'
    /\ cwidth (canvas e') = cwidth (canvas e)
    /\ cheight (canvas e') = cheight (canvas e).
Proof.
  intros Hp Hfull. unfold crop.
  destruct (fill_state r tw th e Hp) as (Hst & Hw & Hh).
  set (c := fillRect _ _ _ _ _ _) in *. clearbody c.
  rewrite (clip_polygon points sX sY c chroma_key Hst).
  rewrite drawImage_nonempty by exact Hfull. cbn [bind].
  eexists; split; [reflexivity|].
  split; [unfold restore, paint; cbn; rewrite Hst; split; reflexivity|].
  split; [exact Hw|exact Hh].
Qed.

Section Runs.

Variable r : Renderer.
Variable rawFrames : list Frame.t.
Variable points : list Point.t.
Variables targetWidth targetHeight scaleX scaleY : JS.number.
Variable frameSkip : Z.
Variables W H EW EH : Z.
Hypothesis W_valid : valid_size W = true.
Hypothesis H_valid : valid_size H = true.
Hypothesis EW_exact : JS.exact targetWidth = Some (inject_Z EW).
Hypothesis EH_exact : JS.exact targetHeight = Some (inject_Z EH).
Hypothesis EW_valid : 0 < EW < 2 ^ 31.
Hypothesis EH_valid : 0 < EH < 2 ^ 31.

Lemma frame_body_runs (i : nat) (frame : Frame.t) (s : Surfaces.t) :
  valid_frame frame = true ->
  full_inv W H (Surfaces.fullCtx s) ->
  export_inv EW EH (Surfaces.exportCtx s) ->
  sized targetWidth targetHeight (Surfaces.gif s) ->
  exists s',
    frame_body r rawFrames points targetWidth targetHeight scaleX scaleY
               frameSkip i frame s = Ok s'
    /\ full_inv W H (Surfaces.fullCtx s')
    /\ export_inv EW EH (Surfaces.exportCtx s')
    /\ GIF.options (Surfaces.gif s') = GIF.options (Surfaces.gif s)
    /\ map GIF.delay (GIF.frames (Surfaces.gif s'))
       = map GIF.delay (GIF.frames (Surfaces.gif s))
         ++ map delay_kept
              (if keeps i frameSkip
               then [kept_delay rawFrames i frameSkip] else []).
Proof.
  intros Hv Hfull (Hplain & Hew & Heh) (Hgw & Hgh).
  destruct (advance_valid r W H frame
              (Surfaces.fullCtx s, Surfaces.patchCtx s) Hv Hfull)
    as ([full' patch'] & Hadv & Hfull').
  cbn [fst] in Hfull'.
  unfold frame_body. unfold advance in Hadv. cbn [fst snd] in Hadv.
  destruct (draw_patch frame (Surfaces.patchCtx s)) as [p|]; cbn [bind] in *;
    [|discriminate].
  destruct (composite r frame (canvas p) _) as [f|]; cbn [bind] in *;
    [|discriminate].
  injection Hadv as -> ->.
  destruct (keeps i frameSkip).
  - destruct (crop_runs r points targetWidth targetHeight scaleX scaleY
                (canvas full') (Surfaces.exportCtx s) Hplain
                (full_nonempty W H W_valid H_valid _ Hfull'))
      as (e' & -> & Hplain' & Hw' & Hh').
    cbn [bind]. unfold GIF.addFrame. rewrite Hgw, Hgh.
    rewrite (getImageData_origin _ _ EW EH e' EW_exact EW_valid
               EH_exact EH_valid).
    cbn [bind]. eexists; split; [reflexivity|].
    cbn [Surfaces.fullCtx Surfaces.exportCtx Surfaces.gif GIF.options
         GIF.frames].
    split; [exact Hfull'|].
    split; [repeat split; try apply Hplain'; congruence|].
    split; [reflexivity|].
    rewrite map_app. reflexivity.
  - eexists; split; [reflexivity|].
    cbn [Surfaces.fullCtx Surfaces.exportCtx Surfaces.gif map].
    split; [exact Hfull'|].
    split; [split; [exact Hplain|split; assumption]|].
    split; [reflexivity|]. now rewrite app_nil_r.
Qed.

Lemma frame_loop_runs (todo : list Frame.t) :
  forall i s,
    forallb valid_frame todo = true ->
    full_inv W H (Surfaces.fullCtx s) ->
    export_inv EW EH (Surfaces.exportCtx s) ->
    sized targetWidth targetHeight (Surfaces.gif s) ->
    exists s',
      frame_loop r rawFrames points targetWidth targetHeight scaleX scaleY
                 frameSkip i todo s = Ok s'
      /\ GIF.options (Surfaces.gif s') = GIF.options (Surfaces.gif s)
      /\ map GIF.delay (GIF.frames (Surfaces.gif s'))
         = map GIF.delay (GIF.frames (Surfaces.gif s))
           ++ map delay_kept (kept_delays rawFrames frameSkip i todo).
Proof.
  induction todo as [|frame rest IH]; intros i s Hv Hfull Hexp Hsz.
  - exists s. split; [reflexivity|]. split; [reflexivity|].
    cbn [kept_delays map]. now rewrite app_nil_r.
  - cbn [forallb] in Hv. apply andb_true_iff in Hv as [Hf Hr].
    destruct (frame_body_runs i frame s Hf Hfull Hexp Hsz)
      as (s1 & Hbody & Hfull1 & Hexp1 & Hopt1 & Hd1).
    assert (Hsz1 : sized targetWidth targetHeight (Surfaces.gif s1)).
    { unfold sized. rewrite Hopt1. exact Hsz. }
    destruct (IH (S i) s1 Hr Hfull1 Hexp1 Hsz1)
      as (s2 & Hloop & Hopt2 & Hd2).
    exists s2. cbn [frame_loop]. rewrite Hbody. cbn [bind].
    split; [exact Hloop|]. split; [congruence|].
    rewrite Hd2, Hd1. cbn [kept_delays].
    now rewrite map_app, <- app_assoc.
Qed.

End Runs.

(** What [processGifRobust] comes to on valid input: a blob when a frame
    was added, no end when none was. *)
Lemma processGifRobust_runs (env : Env) (rawFrames : list Frame.t)
  (points : list Point.t) (ow oh : Z) (targetWidth targetHeight : JS.number)
  (tw th : Z) (frameSkip quality : Z) :
  env_ready env = true ->
  forallb valid_frame rawFrames = true ->
  valid_size ow = true -> valid_size oh = true ->
  JS.exact targetWidth = Some (inject_Z tw) -> 0 < tw < 2 ^ 31 ->
  JS.exact targetHeight = Some (inject_Z th) -> 0 < th < 2 ^ 31 ->
  exists g,
    map GIF.delay (GIF.frames g)
    = map delay_kept (kept_delays rawFrames frameSkip 0 rawFrames)
    /\ processGifRobust env rawFrames points ow oh targetWidth targetHeight
         frameSkip quality
       = match GIF.frames g with
         | [] => Unsettled
         | _ :: _ => Resolved (mkBlob g (rendered_size env g))
         end.
Proof.
  intros Henv Hv Hw Hh Etw Htw Eth Hth. unfold env_ready in Henv.
  apply andb_true_iff in Henv as [Hctx Hws].
  unfold processGifRobust, getWorkerBlobUrl, getContext.
  destruct (worker_script env) as [url|]; [|discriminate].
  rewrite Hctx. cbn [bind require_context].
  set (s0 := Surfaces.mk _ _ _ _).
  destruct (frame_loop_runs (renderer env) rawFrames points
              targetWidth targetHeight
              (targetWidth / JS.of_Z ow)%float
              (targetHeight / JS.of_Z oh)%float frameSkip
              ow oh tw th Hw Hh Etw Eth Htw Hth rawFrames 0%nat s0 Hv)
    as (s' & Hloop & _ & Hd).
  - apply initial_inv; assumption.
  - unfold export_inv, plain; cbn [s0 Surfaces.exportCtx fresh_context
      state canvas ctm clips default_state createCanvas cwidth cheight].
    rewrite (ToUint32_int _ _ Etw), (ToUint32_int _ _ Eth) by lia.
    rewrite width_of_small, height_of_small by lia. auto.
  - split; reflexivity.
  - rewrite Hloop. cbn [bind async]. exists (Surfaces.gif s').
    split; [exact Hd|]. reflexivity.
Qed.

(** *** Whatever the input, what a run that returns has kept *)

Lemma frame_body_kept r rawFrames points tw th sX sY skip i frame s s' :
  frame_body r rawFrames points tw th sX sY skip i frame s = Ok s' ->
  GIF.options (Surfaces.gif s') = GIF.options (Surfaces.gif s)
  /\ map GIF.delay (GIF.frames (Surfaces.gif s'))
     = map GIF.delay (GIF.frames (Surfaces.gif s))
       ++ map delay_kept
            (if keeps i skip then [kept_delay rawFrames i skip] else []).
Proof.
  unfold frame_body.
  destruct (draw_patch frame _) as [p|]; cbn [bind]; [|discriminate].
  destruct (composite r frame _ _) as [f|]; cbn [bind]; [|discriminate].
  destruct (keeps i skip).
  - destruct (crop _ _ _ _ _ _ _ _) as [e|]; cbn [bind]; [|discriminate].
    unfold GIF.addFrame.
    destruct (getImageData _ _ _ _ _) as [data|]; cbn [bind]; [|discriminate].
    intros [= <-]. cbn [Surfaces.gif GIF.options GIF.frames].
    split; [reflexivity|]. now rewrite map_app.
  - intros [= <-]. cbn [Surfaces.gif map].
    split; [reflexivity|]. now rewrite app_nil_r.
Qed.

Lemma frame_loop_kept r rawFrames points tw th sX sY skip todo :
  forall i s s',
    frame_loop r rawFrames points tw th sX sY skip i todo s = Ok s' ->
    GIF.options (Surfaces.gif s') = GIF.options (Surfaces.gif s)
    /\ map GIF.delay (GIF.frames (Surfaces.gif s'))
       = map GIF.delay (GIF.frames (Surfaces.gif s))
         ++ map delay_kept (kept_delays rawFrames skip i todo).
Proof.
  induction todo as [|frame rest IH]; intros i s s'; cbn [frame_loop].
  - intros [= <-]. split; [reflexivity|].
    cbn [kept_delays map]. now rewrite app_nil_r.
  - destruct (frame_body _ _ _ _ _ _ _ _ _ _ _) as [s1|] eqn:E; cbn [bind];
      [|discriminate].
    intros Hl. apply frame_body_kept in E as [Ho1 Hd1].
    apply IH in Hl as [Ho2 Hd2].
    split; [congruence|].
    rewrite Hd2, Hd1. cbn [kept_delays].
    now rewrite map_app, <- app_assoc.
Qed.

Lemma processGifRobust_kept env rawFrames points ow oh tw th skip q blob :
  processGifRobust env rawFrames points ow oh tw th skip q = Resolved blob ->
  GIF.options (content blob)
  = GIF.mkOptions 2 q tw th (GIF.workerScript (GIF.options (content blob)))
      CHROMA_KEY_COLOR_HEX "#000000"
  /\ GIF.frames (content blob) <> []
  /\ size blob = rendered_size env (content blob)
  /\ map GIF.delay (GIF.frames (content blob))
     = map delay_kept (kept_delays rawFrames skip 0 rawFrames).
Proof.
  unfold processGifRobust, getWorkerBlobUrl, getContext.
  destruct (worker_script env) as [url|]; cbn [bind async]; [|discriminate].
  destruct (context2d env); cbn [bind require_context async];
    [|discriminate].
  destruct (frame_loop _ _ _ _ _ _ _ _ _ _ _) as [s|] eqn:E;
    cbn [bind async]; [|discriminate].
  apply frame_loop_kept in E as [Ho Hd].
  cbn [Surfaces.gif GIF.create GIF.options GIF.frames map List.app] in Ho, Hd.
  unfold render. destruct (GIF.frames (Surfaces.gif s)) eqn:Hf;
    [discriminate|].
  intros [= <-]. cbn [content size]. rewrite Ho, Hf.
  cbn [GIF.workerScript]. repeat split; try discriminate. exact Hd.
Qed.

Lemma processGifRobust_options env rawFrames points ow oh tw th skip q blob :
  processGifRobust env rawFrames points ow oh tw th skip q = Resolved blob ->
  GIF.quality (GIF.options (content blob)) = q
  /\ GIF.width (GIF.options (content blob)) = tw
  /\ GIF.height (GIF.options (content blob)) = th
  /\ GIF.transparent (GIF.options (content blob)) = CHROMA_KEY_COLOR_HEX.
Proof.
  intros H. apply processGifRobust_kept in H as (-> & _).
  repeat split.
Qed.

(** At stride 1 every index is kept, with the delay of its frame. *)
Lemma kept_delays_stride_1 (rawFrames : list Frame.t) (todo : list Frame.t) :
  forall done,
    rawFrames = done ++ todo ->
    kept_delays rawFrames 1 (List.length done) todo = map Frame.delay todo.
Proof.
  induction todo as [|frame rest IH]; intros done Hraw; [reflexivity|].
  cbn [kept_delays map]. rewrite keeps_stride_1.
  assert (Hskip : skipn (List.length done) rawFrames = frame :: rest)
    by (rewrite Hraw; apply skipn_length_app).
  rewrite (kept_delay_stride_1 _ _ _ _ Hskip). cbn [List.app]. f_equal.
  assert (Hraw1 : rawFrames = (done ++ [frame]) ++ rest)
    by (now rewrite <- app_assoc).
  specialize (IH _ Hraw1).
  rewrite length_app, Nat.add_1_r in IH. exact IH.
Qed.

Lemma processGifRobust_delays env rawFrames points ow oh tw th q blob :
  processGifRobust env rawFrames points ow oh tw th currentSkip q
  = Resolved blob ->
  map GIF.delay (GIF.frames (content blob))
  = map (fun f => delay_kept (Frame.delay f)) rawFrames.
Proof.
  intros H. apply processGifRobust_kept in H as (_ & _ & _ & ->).
  unfold currentSkip.
  pose proof (kept_delays_stride_1 rawFrames rawFrames [] eq_refl) as K.
  cbn [List.length] in K. rewrite K.
  now rewrite map_map.
Qed.

(** *** The export loop *)

(** [Math.max(32, x)] is never below 32: it is 32, [x] when [x] is larger,
    or NaN. *)
Lemma shrink_not_below_32 (current scaleFactor : JS.number) :
  (shrink current scaleFactor <? 32)%float = false.
Proof.
  unfold shrink, JS.Math_max.
  set (x := JS.Math_floor (current * scaleFactor)%float).
  change (is_nan 32) with false. cbn [orb].
  destruct (is_nan x); [reflexivity|].
  destruct (x <? 32)%float eqn:E; [reflexivity|].
  destruct (32 <? x)%float; [exact E|].
  reflexivity.
Qed.


Lemma follows_tail env frames points w h limit max v a rest :
  call_of env frames points w h v a ->
  (rest <> [] -> over_budget limit max a = true) ->
  follows env frames points w h limit max (next_vars max v a) rest ->
  follows env frames points w h limit max v (a :: rest).
Proof.
  intros Hc Ho Hf. destruct rest as [|b rest].
  - now constructor.
  - constructor; auto. apply Ho. discriminate.
Qed.

Lemma export_loop_spec (fuel : nat) :
  forall env w h v app log,
    (Vars.attempt v <= MAX_ATTEMPTS)%nat ->
    (MAX_ATTEMPTS - Vars.attempt v < fuel)%nat ->
    exists run new,
      export_loop fuel env w h v app log = Some run
      /\ Run.attempts run = log ++ new
      /\ follows env (App.frames app) (App.points app) w h
           (App.limitFileSize app) (App.maxFileSize app) v new
      /\ (List.length new + caught (Run.exit run)
          <= MAX_ATTEMPTS - Vars.attempt v)%nat
      /\ Run.exit run <> TooSmall
      /\ Run.exit run <> NothingToDo
      /\ (Run.exit run = OutOfAttempts ->
          App.processedUrl (Run.app run) = App.processedUrl app
          /\ App.status (Run.app run) = App.status app
          /\ App.error (Run.app run) = Some out_of_attempts_message
          /\ (Vars.attempt v + List.length new = MAX_ATTEMPTS)%nat)
      /\ (Run.exit run = WithinLimit ->
          exists a, last new a = a /\ new <> []
                    /\ over_budget (App.limitFileSize app)
                         (App.maxFileSize app) a = false
                    /\ App.processedUrl (Run.app run) = Some (Attempt.blob a)
                    /\ App.status (Run.app run) = COMPLETED).
Proof.
  induction fuel as [|fuel IH]; intros env w h v app log Hle Hfuel; [lia|].
  cbn [export_loop].
  destruct (Vars.attempt v <? MAX_ATTEMPTS)%nat eqn:Hlt.
  2:{ apply Nat.ltb_ge in Hlt.
      eexists; exists []. split; [reflexivity|].
      cbn [Run.attempts Run.exit Run.app caught List.length].
      rewrite app_nil_r.
      repeat split; try constructor; try discriminate; try lia. }
  apply Nat.ltb_lt in Hlt.
  destruct (processGifRobust env (App.frames app) (App.points app) w h
              (Vars.currentW v) (Vars.currentH v) currentSkip
              (Vars.currentQuality v)) as [blob|e|] eqn:Hcall.
  2:{ eexists; exists []. split; [reflexivity|].
      cbn [Run.attempts Run.exit Run.app caught List.length].
      rewrite app_nil_r.
      repeat split; try constructor; try discriminate; try lia. }
  2:{ eexists; exists []. split; [reflexivity|].
      cbn [Run.attempts Run.exit Run.app caught List.length].
      rewrite app_nil_r.
      repeat split; try constructor; try discriminate; try lia. }
  set (a := Attempt.mk (S (Vars.attempt v)) (Vars.currentW v)
              (Vars.currentH v) (Vars.currentQuality v) blob).
  assert (Ha : call_of env (App.frames app) (App.points app) w h v a).
  { repeat split. exact Hcall. }
  cbn [App.limitFileSize App.maxFileSize App.setFinalSizeMB].
  destruct (negb (App.limitFileSize app)
            || (sizeMB_of blob <=? App.maxFileSize app)%float) eqn:Hacc.
  { eexists; exists [a]. split; [reflexivity|].
    cbn [Run.attempts Run.exit Run.app caught List.length].
    repeat split; try (now constructor); try discriminate; try lia.
    intros _. exists a. repeat split; try discriminate.
    unfold over_budget; cbn [Attempt.blob a].
    destruct (App.limitFileSize app); cbn in *;
      [now rewrite Hacc|reflexivity]. }
  rewrite !shrink_not_below_32. cbn [orb].
  set (v' := Vars.mk _ _ _ _).
  set (app' := App.setFinalSizeMB _ app).
  destruct (IH env w h v' app' (log ++ [a])) as (run & new & Hrun & Hatt & Hfol
      & Hlen & Hts & Hnd & Hout & Hwl).
  { cbn [v' Vars.attempt]. lia. }
  { cbn [v' Vars.attempt]. lia. }
  exists run, (a :: new). split; [exact Hrun|].
  split; [now rewrite Hatt, <- app_assoc|].
  cbn [v' Vars.attempt] in Hlen, Hout.
  assert (Hover : over_budget (App.limitFileSize app) (App.maxFileSize app) a
                  = true).
  { unfold over_budget; cbn [Attempt.blob a].
    apply orb_false_iff in Hacc as [Hl Hs].
    apply negb_false_iff in Hl. now rewrite Hl, Hs. }
  split.
  { apply follows_tail; [exact Ha| now intros _ |exact Hfol]. }
  split; [cbn [List.length]; lia|].
  split; [exact Hts|]. split; [exact Hnd|]. split.
  - intros Hex. destruct (Hout Hex) as (H1 & H2 & H3 & H4).
    repeat split; try assumption. cbn [List.length]. lia.
  - intros Hex. destruct (Hwl Hex) as (b & Hlast & Hne & Hb & Hurl & Hst).
    exists b. repeat split; try assumption; try discriminate.
    destruct new; [congruence|exact Hlast].
Qed.


(** *** What a run logs *)

Section Follows.
Variable env : Env.
Variable frames : list Frame.t.
Variable points : list Point.t.
Variables width height : Z.
Variable limit : bool.
Variable max : JS.number.

Let follows := follows env frames points width height limit max.
Let call_of := call_of env frames points width height.

Lemma follows_head v a rest : follows v (a :: rest) -> call_of v a.
Proof. intros H; inversion H; assumption. Qed.

Lemma follows_nth v log :
  follows v log ->
  forall k a,
    nth_error log k = Some a ->
    Attempt.number a = S (Vars.attempt v + k)
    /\ Attempt.quality a
       = match k with
         | O => Vars.currentQuality v
         | S _ => next_quality (Vars.attempt v + k)
         end.
Proof.
  induction 1 as [v|v a Ha|v a b rest Ha _ Hf IH]; intros k c Hk.
  - now destruct k.
  - destruct k as [|[|k]]; try discriminate. injection Hk as <-.
    destruct Ha as (Hn & _ & _ & Hq & _).
    now rewrite Nat.add_0_r.
  - destruct k as [|k].
    + injection Hk as <-. destruct Ha as (Hn & _ & _ & Hq & _).
      now rewrite Nat.add_0_r.
    + cbn [nth_error] in Hk. destruct (IH k c Hk) as [Hn Hq].
      cbn [next_vars Vars.attempt Vars.currentQuality] in Hn, Hq.
      split.
      * rewrite Hn. f_equal. lia.
      * rewrite Hq. destruct k as [|k].
        -- f_equal. lia.
        -- f_equal. lia.
Qed.

Lemma follows_adjacent v log :
  follows v log ->
  forall k a a',
    nth_error log k = Some a -> nth_error log (S k) = Some a' ->
    over_budget limit max a = true
    /\ Attempt.width a'
       = shrink (Attempt.width a)
                (scale_factor max (sizeMB_of (Attempt.blob a)))
    /\ Attempt.height a'
       = shrink (Attempt.height a)
                (scale_factor max (sizeMB_of (Attempt.blob a))).
Proof.
  induction 1 as [v|v a Ha|v a b rest Ha Ho Hf IH]; intros k c c' Hk Hk'.
  - now destruct k.
  - now destruct k as [|[|k]].
  - destruct k as [|k].
    + injection Hk as <-. injection Hk' as <-.
      split; [exact Ho|].
      apply follows_head in Hf.
      destruct Hf as (_ & Hw & Hh & _), Ha as (_ & Hw0 & Hh0 & _).
      cbn [next_vars Vars.currentW Vars.currentH] in Hw, Hh.
      now rewrite Hw, Hh, Hw0, Hh0.
    + exact (IH k c c' Hk Hk').
Qed.

Lemma follows_calls v log :
  follows v log ->
  forall a, In a log ->
    processGifRobust env frames points width height
      (Attempt.width a) (Attempt.height a) currentSkip (Attempt.quality a)
    = Resolved (Attempt.blob a).
Proof.
  induction 1 as [v|v a Ha|v a b rest Ha _ _ IH]; intros c Hin.
  - destruct Hin.
  - destruct Hin as [<-|[]]. destruct Ha as (_ & -> & -> & -> & Hc).
    exact Hc.
  - destruct Hin as [<-|Hin]; [|now apply IH].
    destruct Ha as (_ & -> & -> & -> & Hc). exact Hc.
Qed.

End Follows.

Lemma export_loop_more_fuel (fuel : nat) :
  forall extra env w h v app log run,
    export_loop fuel env w h v app log = Some run ->
    export_loop (fuel + extra) env w h v app log = Some run.
Proof.
  induction fuel as [|fuel IH]; intros extra env w h v app log run;
    [discriminate|].
  cbn [export_loop Nat.add].
  destruct (Vars.attempt v <? MAX_ATTEMPTS)%nat; [|trivial].
  destruct (processGifRobust _ _ _ _ _ _ _ _ _); [|trivial|trivial].
  destruct (_ || _); [trivial|].
  destruct (_ || _); [trivial|].
  apply IH.
Qed.

(** What every run of [handleExport] satisfies. *)
Lemma handleExport_spec (extra : nat) (env : Env) (app : App.t) :
  exists run,
    handleExport (S MAX_ATTEMPTS + extra) env app = Some run
    /\ handleExport (S MAX_ATTEMPTS) env app = Some run
    /\ (calls run <= MAX_ATTEMPTS)%nat
    /\ Run.exit run <> TooSmall
    /\ (App.dims app = None -> Run.attempts run = [])
    /\ (forall dims,
          App.dims app = Some dims ->
          follows env (App.frames app) (App.points app)
            (Size.width dims) (Size.height dims)
            (App.limitFileSize app) (App.maxFileSize app)
            (first_vars dims) (Run.attempts run))
    /\ (Run.exit run = OutOfAttempts ->
        delivered run = App.processedUrl app
        /\ App.status (Run.app run) = PROCESSING
        /\ App.error (Run.app run) = Some out_of_attempts_message
        /\ List.length (Run.attempts run) = MAX_ATTEMPTS).
Proof.
  unfold handleExport.
  destruct (App.dims app) as [dims|] eqn:Hd.
  2:{ eexists. split; [reflexivity|]. split; [reflexivity|].
      cbn. repeat split; try discriminate; try lia. }
  destruct (App.frames app) as [|f fs] eqn:Hf.
  { eexists. split; [reflexivity|]. split; [reflexivity|].
    cbn. repeat split; try discriminate; try lia.
    intros d _. constructor. }
  destruct (export_loop_spec (S MAX_ATTEMPTS) env (Size.width dims)
              (Size.height dims) (first_vars dims)
              (App.setStatus PROCESSING app) [])
    as (run & new & Hrun & Hatt & Hfol & Hlen & Hts & _ & Hout & _).
  { cbn [first_vars Vars.attempt]. unfold MAX_ATTEMPTS. lia. }
  { cbn [first_vars Vars.attempt]. unfold MAX_ATTEMPTS. lia. }
  cbn [List.app] in Hatt. subst new.
  exists run. split.
  { apply export_loop_more_fuel with (extra := extra) in Hrun.
    exact Hrun. }
  split; [exact Hrun|].
  cbn [first_vars Vars.attempt] in Hlen, Hout. rewrite Nat.sub_0_r in Hlen.
  split.
  { unfold calls. unfold caught in Hlen.
    destruct (Run.exit run); lia. }
  split; [exact Hts|]. split; [discriminate|]. split.
  { intros d [= <-].
    cbn [App.frames App.points App.limitFileSize App.maxFileSize
         App.setStatus] in Hfol.
    rewrite Hf in Hfol. exact Hfol. }
  intros Hex. destruct (Hout Hex) as (H1 & H2 & H3 & H4).
  unfold delivered. repeat split; assumption.
Qed.


(** *** A run never waits for ever *)

(** At stride 1 the first frame is added or the call throws: a call on at
    least one frame is settled. *)
Lemma processGifRobust_settles env f fs points ow oh tw th q :
  processGifRobust env (f :: fs) points ow oh tw th currentSkip q
  <> Unsettled.
Proof.
  unfold processGifRobust, getWorkerBlobUrl, getContext.
  destruct (worker_script env) as [url|]; cbn [bind async]; [|discriminate].
  destruct (context2d env); cbn [bind require_context async];
    [|discriminate].
  destruct (frame_loop _ _ _ _ _ _ _ _ _ _ _) as [s|] eqn:E;
    cbn [bind async]; [|discriminate].
  apply frame_loop_kept in E as [_ Hd].
  unfold render. destruct (GIF.frames (Surfaces.gif s)); [|discriminate].
  exfalso. cbn [kept_delays] in Hd. unfold currentSkip in Hd.
  rewrite keeps_stride_1 in Hd. discriminate Hd.
Qed.

Lemma export_loop_settles (fuel : nat) :
  forall env w h v app log run,
    App.frames app <> [] ->
    export_loop fuel env w h v app log = Some run ->
    Run.exit run <> Pending.
Proof.
  induction fuel as [|fuel IH]; intros env w h v app log run Hf;
    [discriminate|].
  cbn [export_loop].
  destruct (Vars.attempt v <? MAX_ATTEMPTS)%nat; [|intros [= <-]; discriminate].
  destruct (processGifRobust _ _ _ _ _ _ _ _ _) as [blob|e|] eqn:Hcall.
  - destruct (_ || _); [intros [= <-]; discriminate|].
    destruct (_ || _); [intros [= <-]; discriminate|].
    apply IH. exact Hf.
  - intros [= <-]; discriminate.
  - exfalso. destruct (App.frames app) as [|f fs]; [congruence|].
    now apply processGifRobust_settles in Hcall.
Qed.

Lemma handleExport_settles (fuel : nat) (env : Env) (app : App.t)
  (run : Run.t) :
  handleExport fuel env app = Some run -> Run.exit run <> Pending.
Proof.
  unfold handleExport.
  destruct (App.dims app) as [dims|]; [|intros [= <-]; discriminate].
  destruct (App.frames app) as [|f fs] eqn:Hf; [intros [= <-]; discriminate|].
  apply export_loop_settles. cbn [App.frames App.setStatus].
  rewrite Hf. discriminate.
Qed.

(** *** The sample renderer *)

Lemma filter_all {A} (f : A -> bool) (l : list A) :
  (forall x, In x l -> f x = true) -> filter f l = l.
Proof.
  induction l as [|a l IH]; intros H; [reflexivity|].
  cbn [filter]. rewrite (H a (or_introl eq_refl)). f_equal.
  apply IH. intros x Hx. apply H. now right.
Qed.

Lemma filter_none {A} (f : A -> bool) (l : list A) :
  (forall x, In x l -> f x = false) -> filter f l = [].
Proof.
  induction l as [|a l IH]; intros H; [reflexivity|].
  cbn [filter]. rewrite (H a (or_introl eq_refl)).
  apply IH. intros x Hx. apply H. now right.
Qed.

Lemma offset_inside (o : Q) : In o Sample.offsets -> (0 < o)%Q /\ (o < 1)%Q.
Proof.
  unfold Sample.offsets. cbn [In].
  intros [<-|[<-|[<-|[<-|[]]]]]; split; reflexivity.
Qed.

Lemma subsamples_in_pixel (i j : Z) (q : Qpoint) :
  In q (Sample.subsamples i j) -> in_pixel i j q.
Proof.
  unfold Sample.subsamples. rewrite in_flat_map.
  intros (oy & Hoy & Hq). apply in_map_iff in Hq as (ox & <- & Hox).
  apply offset_inside in Hox as [Hx0 Hx1], Hoy as [Hy0 Hy1].
  unfold in_pixel; cbn [fst snd]. rewrite !inject_Z_succ.
  repeat split; lra.
Qed.

Lemma subsamples_length (i j : Z) :
  List.length (Sample.subsamples i j) = 16%nat.
Proof. reflexivity. Qed.

(** The sample renderer is one: its coverage is 0 for a pixel outside the
    region and 1 for a pixel inside it. *)
Lemma smooth_conforming : conforming Sample.smooth.
Proof.
  intros region i j. cbn [Sample.smooth coverage]. unfold Sample.supersampled.
  split; intros H.
  - rewrite filter_none; [reflexivity|].
    intros q Hq. apply H. now apply subsamples_in_pixel.
  - rewrite filter_all, subsamples_length; [reflexivity|].
    intros q Hq. apply H. now apply subsamples_in_pixel.
Qed.

(** ** Frame reconstruction *)

(** C1 (as the code has it): when a frame's own disposal type is 2, its own
    placement rectangle, and nothing else, is cleared to transparent on the
    full canvas right before its own patch is drawn; when it is not 2 the
    full canvas is left as the earlier frames made it, whatever the disposal
    type of the previous frame. *)
Theorem disposal_applies_to_current_frame
  (r : Renderer) (ow oh : Z) (rawFrames : list Frame.t) (k : nat)
  (frame : Frame.t) :
  conforming r ->
  forallb valid_frame rawFrames = true ->
  valid_size ow = true -> valid_size oh = true ->
  nth_error rawFrames k = Some frame ->
  exists st c,
    replay r (firstn k rawFrames) (initial_contexts ow oh) = Ok st
    /\ before_composite r ow oh rawFrames k = Ok c
    /\ (Frame.disposalType frame = 2 ->
        forall i j,
          (in_placement frame i j -> getPixel c i j = transparent_black)
          /\ (~ in_placement frame i j ->
              getPixel c i j = getPixel (canvas (fst st)) i j))
    /\ (Frame.disposalType frame <> 2 -> c = canvas (fst st)).
Proof.
  intros Hr Hv Hw Hh Hk.
  destruct (replay_valid r ow oh (firstn k rawFrames)
              (initial_contexts ow oh)
              (forallb_firstn _ _ k Hv) (initial_inv ow oh Hw Hh))
    as (st & Hrep & Hplain & _).
  exists st, (canvas (dispose r frame (fst st))).
  split; [exact Hrep|]. split.
  { unfold before_composite. rewrite Hk, Hrep. reflexivity. }
  assert (Hf : valid_frame frame = true).
  { rewrite forallb_forall in Hv. apply Hv. eapply nth_error_In; eauto. }
  unfold valid_frame in Hf.
  apply andb_true_iff in Hf as [Hf _].
  apply andb_true_iff in Hf as [Hfw Hfh].
  apply valid_size_spec in Hfw, Hfh.
  unfold dispose. split.
  - intros ->. cbn [Z.eqb Pos.eqb]. intros i j.
    rewrite clearRect_pixels by (try assumption; lia).
    unfold in_placement. split.
    + intros [Hi Hj].
      replace (_ && _) with true; [reflexivity|].
      symmetry. rewrite !andb_true_iff, !Z.leb_le, !Z.ltb_lt. lia.
    + intros Hout.
      replace (_ && _) with false; [reflexivity|].
      symmetry. apply not_true_iff_false. intros Hin. apply Hout.
      rewrite !andb_true_iff, !Z.leb_le, !Z.ltb_lt in Hin. lia.
  - intros Hne. apply Z.eqb_neq in Hne. now rewrite Hne.
Qed.

(** C1 at the third of three sample frames.  Its disposal type is 2 and it
    is placed on the pixel the first frame painted red: that pixel is red
    after the first two frames and transparent when the third patch is about
    to be drawn, while the blue pixel beside it is kept. *)
Lemma disposal_applies_to_current_frame_witness :
  exists st c,
    replay Sample.smooth (firstn 2 Sample.three_frames)
           (initial_contexts 2 1) = Ok st
    /\ before_composite Sample.smooth 2 1 Sample.three_frames 2 = Ok c
    /\ (Frame.disposalType Sample.white_frame = 2 ->
        forall i j,
          (in_placement Sample.white_frame i j ->
           getPixel c i j = transparent_black)
          /\ (~ in_placement Sample.white_frame i j ->
              getPixel c i j = getPixel (canvas (fst st)) i j))
    /\ (Frame.disposalType Sample.white_frame <> 2 -> c = canvas (fst st))
    /\ getPixel (canvas (fst st)) 0 0 = mkRGBA 255 0 0 255
    /\ getPixel c 0 0 = transparent_black
    /\ getPixel (canvas (fst st)) 1 0 = mkRGBA 0 0 255 255
    /\ getPixel c 1 0 = mkRGBA 0 0 255 255.
Proof.
  destruct (disposal_applies_to_current_frame Sample.smooth 2 1
              Sample.three_frames 2 Sample.white_frame smooth_conforming
              eq_refl eq_refl eq_refl eq_refl)
    as (st & c & Hrep & Hbc & Hd & Hn).
  exists st, c.
  split; [exact Hrep|]. split; [exact Hbc|].
  split; [exact Hd|]. split; [exact Hn|].
  assert (Hred : getPixel (canvas (fst st)) 0 0 = mkRGBA 255 0 0 255
                 /\ getPixel (canvas (fst st)) 1 0 = mkRGBA 0 0 255 255).
  { assert (E : exists st0,
               replay Sample.smooth (firstn 2 Sample.three_frames)
                      (initial_contexts 2 1) = Ok st0
               /\ getPixel (canvas (fst st0)) 0 0 = mkRGBA 255 0 0 255
               /\ getPixel (canvas (fst st0)) 1 0 = mkRGBA 0 0 255 255).
    { eexists. split; [reflexivity|]. split; vm_compute; reflexivity. }
    destruct E as (st0 & E & H00 & H10).
    rewrite E in Hrep. injection Hrep as <-. split; assumption. }
  destruct Hred as [H00 H10].
  split; [exact H00|].
  split; [apply (Hd eq_refl 0 0); unfold in_placement; cbn; lia|].
  split; [exact H10|].
  rewrite <- H10. apply (Hd eq_refl 1 0). unfold in_placement; cbn. lia.
Defined.

(** C1 (as the spec states it) fails: after a first frame with disposal
    type 2, its pixel is still on the full canvas when the patch of the
    second frame is about to be drawn. *)
Lemma previous_disposal_not_applied :
  ~ lagged_disposal Sample.smooth 2 1 Sample.frames.
Proof.
  intros H.
  assert (E : exists c,
             before_composite Sample.smooth 2 1 Sample.frames 1 = Ok c
             /\ getPixel c 0 0 = mkRGBA 255 0 0 255).
  { eexists. split; [reflexivity|]. vm_compute. reflexivity. }
  destruct E as (c & E & Hred).
  assert (Hin : in_placement Sample.red_frame 0 0).
  { unfold in_placement. cbn. lia. }
  specialize (H 0%nat Sample.red_frame c eq_refl eq_refl E 0 0 Hin).
  rewrite Hred in H. discriminate H.
Qed.

(** ** Masking *)

Lemma effective_scale_exact (sX sY : JS.number) (sx sy : Q) :
  JS.exact sX = Some sx -> JS.exact sY = Some sy ->
  effective_scale sX sY = (sx, sy).
Proof. intros E1 E2. unfold effective_scale, dbl. now rewrite E1, E2. Qed.

(** C2 (as the code has it): one bitmap is emitted per raw frame, each
    [targetWidth] by [targetHeight].  With the polygon scaled by
    [(targetWidth / originalWidth, targetHeight / originalHeight)], a pixel
    that lies outside it is the chroma key exactly; a pixel that lies inside
    it (and on the scaled picture) is the reconstructed full canvas, sampled
    at the scaled-back position of the pixel's centre, over the chroma key;
    at scale 1 that is the pixel of the full canvas itself.  Nothing is said
    of a pixel the edge of the polygon runs through, whose colour is the
    renderer's blend. *)
Theorem crop_masks_to_scaled_polygon
  (env : Env) (rawFrames : list Frame.t) (points : list Point.t)
  (ow oh : Z) (targetWidth targetHeight : JS.number) (quality : Z)
  (tw th : Z) (sx sy : Q) :
  env_ready env = true -> conforming (renderer env) ->
  forallb valid_frame rawFrames = true -> rawFrames <> [] ->
  valid_size ow = true -> valid_size oh = true ->
  JS.exact targetWidth = Some (inject_Z tw) -> 0 < tw < 2 ^ 31 ->
  JS.exact targetHeight = Some (inject_Z th) -> 0 < th < 2 ^ 31 ->
  JS.exact (targetWidth / JS.of_Z ow)%float = Some sx ->
  JS.exact (targetHeight / JS.of_Z oh)%float = Some sy ->
  exists blob,
    processGifRobust env rawFrames points ow oh targetWidth targetHeight
                     currentSkip quality = Resolved blob
    /\ List.length (GIF.frames (content blob)) = List.length rawFrames
    /\ forall k fr,
         nth_error (GIF.frames (content blob)) k = Some fr ->
         exists full,
           reconstructed (renderer env) ow oh rawFrames k = Ok full
           /\ mask_of (renderer env) points (sx, sy) full tw th
                      (GIF.image fr).
Proof.
  intros Henv Hr Hv Hne Hw Hh Etw Htw Eth Hth Esx Esy.
  destruct (processGifRobust_spec env rawFrames points ow oh
              targetWidth targetHeight tw th quality
              Henv Hr Hv Hne Hw Hh Etw Htw Eth Hth)
    as (blob & Hrun & _ & _ & Hem).
  exists blob. split; [exact Hrun|].
  split; [eapply emits_length; eauto|].
  intros k fr Hk.
  destruct (emits_nth _ _ _ _ _ _ _ _ _ Hem k fr Hk)
    as (frame & stk & _ & Hrep & _ & Hmask).
  exists (canvas (fst stk)). split.
  { unfold reconstructed. rewrite Hrep. reflexivity. }
  rewrite (effective_scale_exact _ _ _ _ Esx Esy) in Hmask. exact Hmask.
Qed.

(** *** Sample polygons, pixel by pixel *)

Ltac settle_tests :=
  repeat match goal with
  | |- context [Qle_bool ?a ?b] =>
      first [ replace (Qle_bool a b) with true
                by (symmetry; apply Qle_bool_iff; first [lra | nra])
            | replace (Qle_bool a b) with false
                by (symmetry; apply Qle_bool_false; first [lra | nra]) ]
  | |- context [Qlt_bool ?a ?b] =>
      first [ replace (Qlt_bool a b) with true
                by (symmetry; apply Qlt_bool_iff; first [lra | nra])
            | replace (Qlt_bool a b) with false
                by (symmetry; apply Qlt_bool_false; first [lra | nra]) ]
  end.

Ltac in_polygon :=
  unfold inside_polygon, winding, winding_from, crossing, isLeft;
  cbn [fst snd]; settle_tests; reflexivity.

Lemma left_half_scaled :
  scaled_vertices (1 # 2) (1 # 2) Sample.left_half
  = [(0 # 2, 0 # 2); (2 # 2, 0 # 2); (2 # 2, 2 # 2); (0 # 2, 2 # 2)]%Q.
Proof. vm_compute. reflexivity. Qed.

Lemma left_half_holds_first_pixel :
  pixel_inside (scaled_vertices (1 # 2) (1 # 2) Sample.left_half) 0 0.
Proof.
  rewrite left_half_scaled. intros [x y] (H1 & H2 & H3 & H4).
  cbn [fst snd] in *.
  change (inject_Z 0) with 0%Q in *. change (inject_Z (0 + 1)) with 1%Q in *.
  in_polygon.
Qed.

Lemma left_half_misses_second_pixel :
  pixel_outside (scaled_vertices (1 # 2) (1 # 2) Sample.left_half) 1 0.
Proof.
  rewrite left_half_scaled. intros [x y] (H1 & H2 & H3 & H4).
  cbn [fst snd] in *.
  change (inject_Z 0) with 0%Q in *. change (inject_Z 1) with 1%Q in *.
  change (inject_Z (0 + 1)) with 1%Q in *.
  change (inject_Z (1 + 1)) with 2%Q in *.
  in_polygon.
Qed.

(** C2 on a frame of 4 by 2 pixels, red on the left and blue on the right,
    cropped to the polygon around its left half and scaled to 2 by 1: the
    bitmap emitted is 2 by 1; its second pixel lies outside the scaled
    polygon and is the chroma key; its first pixel lies inside and is the
    red of the four pixels it is resampled from. *)
Lemma crop_masks_to_scaled_polygon_witness :
  exists blob,
    processGifRobust Sample.env [Sample.two_tone] Sample.left_half 4 2
                     2%float 1%float currentSkip 10 = Resolved blob
    /\ List.length (GIF.frames (content blob)) = 1%nat
    /\ (forall k fr,
          nth_error (GIF.frames (content blob)) k = Some fr ->
          exists full,
            reconstructed Sample.smooth 4 2 [Sample.two_tone] k = Ok full
            /\ mask_of Sample.smooth Sample.left_half (1 # 2, 1 # 2)%Q full
                       2 1 (GIF.image fr))
    /\ exists fr,
         nth_error (GIF.frames (content blob)) 0 = Some fr
         /\ ipixel (GIF.image fr) 1 0 = chroma_key
         /\ ipixel (GIF.image fr) 0 0 = mkRGBA 255 0 0 255.
Proof.
  destruct (crop_masks_to_scaled_polygon Sample.env [Sample.two_tone]
              Sample.left_half 4 2 2%float 1%float 10 2 1
              (1 # 2)%Q (1 # 2)%Q)
    as (blob & Hrun & Hlen & Hmask);
    try reflexivity; try lia; try discriminate;
    try exact smooth_conforming.
  exists blob. split; [exact Hrun|]. split; [exact Hlen|].
  split; [exact Hmask|].
  destruct (GIF.frames (content blob)) as [|fr [|fr' frs]] eqn:Hfr;
    try discriminate Hlen.
  exists fr. split; [reflexivity|].
  destruct (Hmask 0%nat fr eq_refl) as (full & Hfull & _ & _ & Hpx).
  change (renderer Sample.env) with Sample.smooth in Hfull, Hpx.
  assert (E : exists full0,
             reconstructed Sample.smooth 4 2 [Sample.two_tone] 0 = Ok full0
             /\ cwidth full0 = 4 /\ cheight full0 = 2
             /\ sample Sample.smooth full0 (1 # 2, 1 # 2)%Q
                  (centre 0 / (1 # 2), centre 0 / (1 # 2))%Q
                = mkRGBA 255 0 0 255).
  { eexists. split; [reflexivity|]. repeat split; vm_compute; reflexivity. }
  destruct E as (full0 & E & Hcw & Hch & Hs).
  rewrite E in Hfull. injection Hfull as <-.
  split.
  - apply (Hpx 1 0); try lia. exact left_half_misses_second_pixel.
  - destruct (Hpx 0 0) as (_ & Hin & _); try lia.
    cbn [fst snd] in Hin. rewrite Hin.
    + rewrite Hs. reflexivity.
    + exact left_half_holds_first_pixel.
    + unfold within_picture; cbn [fst snd]. rewrite Hcw, Hch.
      repeat split; reflexivity || discriminate.
Defined.

(** C2 (as the spec states it) fails with a renderer that anti-aliases: a
    polygon whose right edge runs a quarter of the way through the second
    pixel of a red picture leaves that pixel, whose centre is outside the
    polygon, a blend of a quarter red and three quarters chroma key. *)
Lemma outside_pixel_not_keyed :
  ~ keyed_outside Sample.env [Sample.red_pair] Sample.five_quarters 2 1
      2%float 1%float 10.
Proof.
  intros H.
  assert (E : exists blob fr,
             processGifRobust Sample.env [Sample.red_pair]
               Sample.five_quarters 2 1 2%float 1%float currentSkip 10
             = Resolved blob
             /\ In fr (GIF.frames (content blob))
             /\ iwidth (GIF.image fr) = 2 /\ iheight (GIF.image fr) = 1
             /\ ipixel (GIF.image fr) 1 0 = mkRGBA 64 191 0 255).
  { eexists. eexists. split; [reflexivity|].
    split; [left; reflexivity|]. repeat split; vm_compute; reflexivity. }
  destruct E as (blob & fr & Hrun & Hin & Hw & Hh & Hpx).
  specialize (H blob 1%Q 1%Q fr 1 0 Hrun eq_refl eq_refl Hin).
  rewrite Hw, Hh, Hpx in H.
  assert (K : mkRGBA 64 191 0 255 = chroma_key).
  { apply H; try lia. vm_compute. reflexivity. }
  discriminate K.
Qed.

(** ** Frames and delays *)



(** ** Polygons with few points *)

Lemma isLeft_swap (a b p : Qpoint) : (isLeft b a p == - isLeft a b p)%Q.
Proof. unfold isLeft. ring. Qed.

Lemma Qlt_bool_flip (x y : Q) :
  (x == - y)%Q -> Qlt_bool 0 x = Qlt_bool y 0 /\ Qlt_bool x 0 = Qlt_bool 0 y.
Proof.
  intros E. split; apply eq_true_iff_eq; rewrite !Qlt_bool_iff; lra.
Qed.

Lemma crossing_back (a b p : Qpoint) : crossing a b p + crossing b a p = 0.
Proof.
  unfold crossing.
  destruct (Qlt_bool_flip _ _ (isLeft_swap a b p)) as [-> ->].
  change (Qlt_bool (snd p) (snd b)) with (negb (Qle_bool (snd b) (snd p))).
  change (Qlt_bool (snd p) (snd a)) with (negb (Qle_bool (snd a) (snd p))).
  destruct (Qle_bool (snd a) (snd p)), (Qle_bool (snd b) (snd p)),
    (Qlt_bool 0 (isLeft a b p)), (Qlt_bool (isLeft a b p) 0); reflexivity.
Qed.

Lemma winding_degenerate (poly : list Qpoint) (p : Qpoint) :
  (List.length poly < 3)%nat -> winding poly p = 0.
Proof.
  destruct poly as [|a [|b [|c rest]]]; cbn [List.length]; intros Hl.
  - reflexivity.
  - apply crossing_self.
  - cbn [winding winding_from]. apply crossing_back.
  - lia.
Qed.

Lemma scaled_vertices_length (sx sy : Q) (points : list Point.t) :
  (List.length (scaled_vertices sx sy points) <= List.length points)%nat.
Proof.
  induction points as [|p rest IH]; cbn [scaled_vertices List.length].
  - lia.
  - destruct (scaled_vertex sx sy p); cbn [List.length]; lia.
Qed.

Lemma degenerate_outside (points : list Point.t) (sx sy : Q) (i j : Z) :
  (List.length points < 3)%nat ->
  pixel_outside (scaled_vertices sx sy points) i j.
Proof.
  intros Hl q _. unfold inside_polygon.
  rewrite winding_degenerate; [reflexivity|].
  pose proof (scaled_vertices_length sx sy points). lia.
Qed.

Lemma chroma_when_nothing_enclosed
  (env : Env) (rawFrames : list Frame.t) (points : list Point.t)
  (ow oh : Z) (targetWidth targetHeight : JS.number) (quality : Z)
  (tw th : Z) :
  (forall sx sy i j, pixel_outside (scaled_vertices sx sy points) i j) ->
  env_ready env = true -> conforming (renderer env) ->
  forallb valid_frame rawFrames = true -> rawFrames <> [] ->
  valid_size ow = true -> valid_size oh = true ->
  JS.exact targetWidth = Some (inject_Z tw) -> 0 < tw < 2 ^ 31 ->
  JS.exact targetHeight = Some (inject_Z th) -> 0 < th < 2 ^ 31 ->
  exists blob,
    processGifRobust env rawFrames points ow oh targetWidth targetHeight
                     currentSkip quality = Resolved blob
    /\ List.length (GIF.frames (content blob)) = List.length rawFrames
    /\ GIF.transparent (GIF.options (content blob)) = CHROMA_KEY_COLOR_HEX
    /\ forall fr, In fr (GIF.frames (content blob)) ->
                  iwidth (GIF.image fr) = tw /\ iheight (GIF.image fr) = th
                  /\ all_chroma (GIF.image fr).
Proof.
  intros Hnone Henv Hr Hv Hne Hw Hh Etw Htw Eth Hth.
  destruct (processGifRobust_spec env rawFrames points ow oh
              targetWidth targetHeight tw th quality
              Henv Hr Hv Hne Hw Hh Etw Htw Eth Hth)
    as (blob & Hrun & (url & Hopt) & _ & Hem).
  exists blob. split; [exact Hrun|]. split.
  { eapply emits_length; eauto. }
  split; [now rewrite Hopt|].
  intros fr Hin. apply In_nth_error in Hin as [k Hk].
  destruct (emits_nth _ _ _ _ _ _ _ _ _ Hem k fr Hk)
    as (frame & stk & _ & _ & _ & Hiw & Hih & Hpx).
  split; [exact Hiw|]. split; [exact Hih|].
  intros i j Hi Hj. rewrite Hiw in Hi. rewrite Hih in Hj.
  apply (Hpx i j Hi Hj). apply Hnone.
Qed.

(** C10: with no points the path is left empty, nothing passes the clip, and
    the run completes with every pixel of every added frame equal to the
    chroma key [0x00FF00], which is also the colour the encoder is told to
    treat as transparent. *)
Theorem empty_polygon_gives_chroma_frames
  (env : Env) (rawFrames : list Frame.t)
  (ow oh : Z) (targetWidth targetHeight : JS.number) (quality : Z)
  (tw th : Z) :
  env_ready env = true -> conforming (renderer env) ->
  forallb valid_frame rawFrames = true -> rawFrames <> [] ->
  valid_size ow = true -> valid_size oh = true ->
  JS.exact targetWidth = Some (inject_Z tw) -> 0 < tw < 2 ^ 31 ->
  JS.exact targetHeight = Some (inject_Z th) -> 0 < th < 2 ^ 31 ->
  (forall ctx, trace_points [] ctx = ctx)
  /\ chroma_key = mkRGBA 0 255 0 255
  /\ exists blob,
       processGifRobust env rawFrames [] ow oh targetWidth targetHeight
                        currentSkip quality = Resolved blob
       /\ List.length (GIF.frames (content blob)) = List.length rawFrames
       /\ GIF.transparent (GIF.options (content blob)) = CHROMA_KEY_COLOR_HEX
       /\ forall fr, In fr (GIF.frames (content blob)) ->
                     iwidth (GIF.image fr) = tw
                     /\ iheight (GIF.image fr) = th
                     /\ all_chroma (GIF.image fr).
Proof.
  intros Henv Hr Hv Hne Hw Hh Etw Htw Eth Hth.
  split; [reflexivity|]. split; [reflexivity|].
  apply chroma_when_nothing_enclosed; try assumption.
  intros sx sy i j q _. reflexivity.
Qed.

(** C10 at the two sample frames: two frames of 2 by 1 pixels, all chroma
    key. *)
Lemma empty_polygon_gives_chroma_frames_witness :
  (forall ctx, trace_points [] ctx = ctx)
  /\ chroma_key = mkRGBA 0 255 0 255
  /\ exists blob,
       processGifRobust Sample.env Sample.frames [] 2 1 2%float 1%float
                        currentSkip 10 = Resolved blob
       /\ List.length (GIF.frames (content blob)) = 2%nat
       /\ GIF.transparent (GIF.options (content blob)) = CHROMA_KEY_COLOR_HEX
       /\ forall fr, In fr (GIF.frames (content blob)) ->
                     iwidth (GIF.image fr) = 2
                     /\ iheight (GIF.image fr) = 1
                     /\ all_chroma (GIF.image fr).
Proof.
  apply (empty_polygon_gives_chroma_frames Sample.env Sample.frames 2 1
           2%float 1%float 10 2 1);
    try reflexivity; try lia; try discriminate.
  exact smooth_conforming.
Defined.

(** C6 (as the code has it): a polygon of fewer than three points is not
    rejected.  The run goes on as for any polygon and, no pixel lying inside
    such a polygon, adds one all-chroma frame per raw frame. *)
Theorem degenerate_polygon_is_exported
  (env : Env) (rawFrames : list Frame.t) (points : list Point.t)
  (ow oh : Z) (targetWidth targetHeight : JS.number) (quality : Z)
  (tw th : Z) :
  (List.length points < 3)%nat ->
  env_ready env = true -> conforming (renderer env) ->
  forallb valid_frame rawFrames = true -> rawFrames <> [] ->
  valid_size ow = true -> valid_size oh = true ->
  JS.exact targetWidth = Some (inject_Z tw) -> 0 < tw < 2 ^ 31 ->
  JS.exact targetHeight = Some (inject_Z th) -> 0 < th < 2 ^ 31 ->
  exists blob,
    processGifRobust env rawFrames points ow oh targetWidth targetHeight
                     currentSkip quality = Resolved blob
    /\ List.length (GIF.frames (content blob)) = List.length rawFrames
    /\ GIF.transparent (GIF.options (content blob)) = CHROMA_KEY_COLOR_HEX
    /\ forall fr, In fr (GIF.frames (content blob)) ->
                  iwidth (GIF.image fr) = tw /\ iheight (GIF.image fr) = th
                  /\ all_chroma (GIF.image fr).
Proof.
  intros Hl. apply chroma_when_nothing_enclosed.
  intros sx sy i j. now apply degenerate_outside.
Qed.

(** C6 at the two sample frames and a polygon of two points. *)
Lemma degenerate_polygon_is_exported_witness :
  exists blob,
    processGifRobust Sample.env Sample.frames Sample.segment 2 1 2%float
                     1%float currentSkip 10 = Resolved blob
    /\ List.length (GIF.frames (content blob)) = 2%nat
    /\ GIF.transparent (GIF.options (content blob)) = CHROMA_KEY_COLOR_HEX
    /\ forall fr, In fr (GIF.frames (content blob)) ->
                  iwidth (GIF.image fr) = 2 /\ iheight (GIF.image fr) = 1
                  /\ all_chroma (GIF.image fr).
Proof.
  apply (degenerate_polygon_is_exported Sample.env Sample.frames
           Sample.segment 2 1 2%float 1%float 10 2 1);
    try reflexivity; try lia; try discriminate.
  - cbn; lia.
  - exact smooth_conforming.
Defined.

(** C6 (as the spec states it) fails: a two-point polygon is exported. *)
Lemma degenerate_polygon_not_rejected :
  ~ rejects_degenerate Sample.env Sample.frames Sample.segment 2 1
      2%float 1%float 10.
Proof.
  intros H. destruct H as [e He].
  - cbn. lia.
  - destruct (processGifRobust_runs Sample.env Sample.frames Sample.segment
                2 1 2%float 1%float 2 1 currentSkip 10)
      as (g & Hd & Hrun); try reflexivity; try lia.
    rewrite Hrun in He.
    destruct (GIF.frames g); [discriminate Hd|discriminate He].
Qed.

(** ** The size-constrained export loop *)

(** C9: for any input and any limit, the loop calls [processGifRobust] at
    most five times and then ends; fuel beyond [S MAX_ATTEMPTS] changes
    nothing. *)
Theorem at_most_five_attempts (extra : nat) (env : Env) (app : App.t) :
  exists run,
    handleExport (S MAX_ATTEMPTS + extra) env app = Some run
    /\ handleExport (S MAX_ATTEMPTS) env app = Some run
    /\ (calls run <= 5)%nat.
Proof.
  destruct (handleExport_spec extra env app) as (run & H1 & H2 & H3 & _).
  exists run. auto.
Qed.

(** C8: the quality handed to the encoder depends on the attempt number
    alone: 10 on the first attempt, 15 after attempt 1, 20 after attempt 2
    and 30 after every later attempt (a higher number is a coarser
    sampling), whatever the encoder's output sizes were. *)
Theorem quality_follows_attempt_number (extra : nat) (env : Env)
  (app : App.t) :
  exists run,
    handleExport (S MAX_ATTEMPTS + extra) env app = Some run
    /\ forall k a,
         nth_error (Run.attempts run) k = Some a ->
         Attempt.number a = S k
         /\ GIF.quality (GIF.options (content (Attempt.blob a)))
            = match k with
              | 0%nat => 10
              | 1%nat => 15
              | 2%nat => 20
              | _ => 30
              end.
Proof.
  destruct (handleExport_spec extra env app)
    as (run & H1 & _ & _ & _ & Hnone & Hfol & _).
  exists run. split; [exact H1|]. intros k a Hk.
  destruct (App.dims app) as [dims|] eqn:Hd.
  2:{ rewrite (Hnone eq_refl) in Hk. now destruct k. }
  specialize (Hfol dims eq_refl).
  destruct (follows_nth _ _ _ _ _ _ _ _ _ Hfol k a Hk) as [Hn Hq].
  pose proof (follows_calls _ _ _ _ _ _ _ _ _ Hfol a
                (nth_error_In _ _ Hk)) as Hc.
  apply processGifRobust_options in Hc as (Hopt & _). rewrite Hopt, Hq.
  cbn [first_vars Vars.attempt Vars.currentQuality Nat.add] in *.
  split; [exact Hn|].
  destruct k as [|[|[|k]]]; reflexivity.
Qed.

(** C5: whenever an attempt is followed by another, it was over the limit
    and both target dimensions of the next call are
    [max(32, floor(old * sqrt(maxFileSize / sizeMB * 0.9)))]. *)
Theorem dimensions_shrink_by_root_of_ratio (extra : nat) (env : Env)
  (app : App.t) :
  exists run,
    handleExport (S MAX_ATTEMPTS + extra) env app = Some run
    /\ forall k a a',
         nth_error (Run.attempts run) k = Some a ->
         nth_error (Run.attempts run) (S k) = Some a' ->
         let ratio :=
           (App.maxFileSize app / sizeMB_of (Attempt.blob a))%float in
         let safetyRatio := (ratio * 0.9)%float in
         let scaleFactor := JS.Math_sqrt safetyRatio in
         over_budget (App.limitFileSize app) (App.maxFileSize app) a = true
         /\ GIF.width (GIF.options (content (Attempt.blob a')))
            = JS.Math_max 32%float
                (JS.Math_floor
                   (GIF.width (GIF.options (content (Attempt.blob a)))
                    * scaleFactor)%float)
         /\ GIF.height (GIF.options (content (Attempt.blob a')))
            = JS.Math_max 32%float
                (JS.Math_floor
                   (GIF.height (GIF.options (content (Attempt.blob a)))
                    * scaleFactor)%float).
Proof.
  destruct (handleExport_spec extra env app)
    as (run & H1 & _ & _ & _ & Hnone & Hfol & _).
  exists run. split; [exact H1|]. intros k a a' Hk Hk'.
  destruct (App.dims app) as [dims|] eqn:Hd.
  2:{ rewrite (Hnone eq_refl) in Hk. now destruct k. }
  specialize (Hfol dims eq_refl).
  destruct (follows_adjacent _ _ _ _ _ _ _ _ _ Hfol k a a' Hk Hk')
    as (Ho & Hw & Hh).
  pose proof (follows_calls _ _ _ _ _ _ _ _ _ Hfol a
                (nth_error_In _ _ Hk)) as Hc.
  pose proof (follows_calls _ _ _ _ _ _ _ _ _ Hfol a'
                (nth_error_In _ _ Hk')) as Hc'.
  apply processGifRobust_options in Hc as (_ & Hcw & Hch & _).
  apply processGifRobust_options in Hc' as (_ & Hcw' & Hch' & _).
  cbn zeta. rewrite Hcw, Hch, Hcw', Hch', Hw, Hh.
  split; [exact Ho|]. split; reflexivity.
Qed.

(** The break for extremely small images is never taken: the dimensions it
    tests have just been clamped to at least 32. *)
Lemma break_for_small_images_unreachable (extra : nat) (env : Env)
  (app : App.t) :
  exists run,
    handleExport (S MAX_ATTEMPTS + extra) env app = Some run
    /\ Run.exit run <> TooSmall.
Proof.
  destruct (handleExport_spec extra env app) as (run & H1 & _ & _ & H4 & _).
  exists run. auto.
Qed.

(** A run that uses up its attempts offers no new blob for download and
    leaves the status at [PROCESSING]. *)
Lemma out_of_attempts_delivers_nothing (extra : nat) (env : Env)
  (app : App.t) :
  exists run,
    handleExport (S MAX_ATTEMPTS + extra) env app = Some run
    /\ (Run.exit run = OutOfAttempts ->
        delivered run = App.processedUrl app
        /\ App.status (Run.app run) = PROCESSING
        /\ App.error (Run.app run) = Some out_of_attempts_message).
Proof.
  destruct (handleExport_spec extra env app)
    as (run & H1 & _ & _ & _ & _ & _ & H).
  exists run. split; [exact H1|]. intros Hex.
  destruct (H Hex) as (Ha & Hb & Hc & _). auto.
Qed.

(** C3 at a failing input: a 100 x 100 animation, a limit of 1 MB, and an
    encoder whose output stays above it.  Five attempts are made, none goes
    below 32 pixels, and at the end no blob is offered for download: the
    status is still [PROCESSING] and only the message is set. *)
Theorem out_of_attempts_run :
  option_map digest
    (handleExport (S MAX_ATTEMPTS) Sample.overhead_encoder
       (Sample.app 100 100 1%float))
  = Some (OutOfAttempts,
          [(1%nat, 100%float, 100%float, 10, 1410000);
           (2%nat, 81%float, 81%float, 15, 1406561);
           (3%nat, 66%float, 66%float, 20, 1404356);
           (4%nat, 54%float, 54%float, 30, 1402916);
           (5%nat, 44%float, 44%float, 30, 1401936)],
          PROCESSING,
          Some out_of_attempts_message,
          None).
Proof. vm_compute. reflexivity. Qed.

(** C4 at a failing input: a 40 x 40 animation and a limit of 0.25 MB.  The
    update after the first attempt would bring both dimensions to 16; they
    are clamped to 32 and four more attempts are encoded at 32 x 32, the
    blob of the first attempt not being accepted. *)
Theorem clamped_run_goes_on :
  JS.Math_floor
    (40 * scale_factor 0.25 (JS.of_Z 1401600 / (1024 * 1024)))%float
  = 16%float
  /\ option_map digest
       (handleExport (S MAX_ATTEMPTS) Sample.overhead_encoder
          (Sample.app 40 40 0.25%float))
     = Some (OutOfAttempts,
             [(1%nat, 40%float, 40%float, 10, 1401600);
              (2%nat, 32%float, 32%float, 15, 1401024);
              (3%nat, 32%float, 32%float, 20, 1401024);
              (4%nat, 32%float, 32%float, 30, 1401024);
              (5%nat, 32%float, 32%float, 30, 1401024)],
             PROCESSING,
             Some out_of_attempts_message,
             None).
Proof. split; vm_compute; reflexivity. Qed.

(** No attempt of a run drops a frame: every blob the loop obtains holds
    the frames of the application, in order, each with the delay the encoder
    keeps for that of its raw frame. *)
Lemma every_attempt_keeps_every_frame (extra : nat) (env : Env)
  (app : App.t) :
  exists run,
    handleExport (S MAX_ATTEMPTS + extra) env app = Some run
    /\ forall a,
         In a (Run.attempts run) ->
         map GIF.delay (GIF.frames (content (Attempt.blob a)))
         = map (fun f => delay_kept (Frame.delay f)) (App.frames app).
Proof.
  destruct (handleExport_spec extra env app)
    as (run & H1 & _ & _ & _ & Hnone & Hfol & _).
  exists run. split; [exact H1|]. intros a Hin.
  destruct (App.dims app) as [dims|] eqn:Hd.
  2:{ rewrite (Hnone eq_refl) in Hin. destruct Hin. }
  specialize (Hfol dims eq_refl).
  pose proof (follows_calls _ _ _ _ _ _ _ _ _ Hfol a Hin) as Hc.
  now apply processGifRobust_delays in Hc.
Qed.
